(** * MagicWorld native FFI shim: a shallow embedding of [native_ffi.c]

    The file follows the C source function by function.  Integers are
    mathematical integers with the wrap-around of their C type written
    out; the heap is a finite map from blocks to objects; a C function
    that touches memory is a state transformer that either returns or
    stops at undefined behaviour. *)

From Stdlib Require Import ZArith List Lia.
From Stdlib Require Import Strings.String Strings.Byte.
From stdpp Require Import base option list gmap.

Local Open Scope Z_scope.

(** ** Fixed-width integers *)

Module CInt.

(** The bit pattern of a 32-bit integer, and its reading as [int32_t]. *)
Definition to_u32 (z : Z) : Z := z mod 2 ^ 32.
Definition of_u32 (u : Z) : Z := if u <? 2 ^ 31 then u else u - 2 ^ 32.

Definition INT32_MIN : Z := - 2 ^ 31.
Definition INT32_MAX : Z := 2 ^ 31 - 1.
Definition int32 (z : Z) : Prop := INT32_MIN <= z <= INT32_MAX.

(** [a + b] on [int32_t]: the adder works on the two bit patterns and
    keeps the low 32 bits (the semantics CompCert gives to C's signed
    addition, and what the target's [add] instruction computes). *)
Definition add32 (a b : Z) : Z := of_u32 ((to_u32 a + to_u32 b) mod 2 ^ 32).

(** [int] is 32 bits wide and [size_t] 64 bits wide on the targets of
    the shim (LP64). *)
Definition INT_MAX : Z := 2 ^ 31 - 1.
Definition SIZE_WIDTH : Z := 64.
Definition size_t (z : Z) : Prop := 0 <= z < 2 ^ SIZE_WIDTH.
Definition size_add (a b : Z) : Z := (a + b) mod 2 ^ SIZE_WIDTH.
Definition size_of_nat (n : nat) : Z := Z.of_nat n mod 2 ^ SIZE_WIDTH.

(** The cast [(int32_t)x] keeps the low 32 bits. *)
Definition cast_int32 (z : Z) : Z := of_u32 (to_u32 z).

(** The cast [(int64_t)x]. *)
Definition cast_int64 (z : Z) : Z :=
  let u := z mod 2 ^ 64 in if u <? 2 ^ 63 then u else u - 2 ^ 64.
Definition int64 (z : Z) : Prop := - 2 ^ 63 <= z < 2 ^ 63.

End CInt.

(** ** Memory *)

Module Mem.

Definition block := positive.

(** A pointer is null, the address of a heap block, or the address of
    a string literal in static storage. *)
Inductive ptr :=
| NULL
| Ptr (b : block)
| Lit (s : list byte).
Arguments Ptr b%_positive.

Definition is_null (p : ptr) : bool :=
  match p with NULL => true | _ => false end.

(** [SystemInfo] of native_ffi.h.  A field is [None] until it has been
    assigned: memory from [malloc] is indeterminate. *)
Record SystemInfo := mkInfo {
  platform : option ptr;
  version : option ptr;
  timestamp : option Z
}.

(** What a heap block holds.  A block fresh from [malloc] has no
    effective type; the first store gives it one. *)
Inductive object :=
| Raw (size : Z)
| Chars (cs : list (option byte))
| Ints (xs : list Z)
| Info (si : SystemInfo).

Inductive event :=
| EvMalloc (size : Z) (p : ptr)
| EvFree (b : block).
Arguments EvFree b%_positive.

Record state := mkState {
  heap : gmap block object;
  mallocs : list bool;
  clock : Z;
  trace : list event
}.

Definition set_heap (h : gmap block object) (s : state) : state :=
  mkState h (mallocs s) (clock s) (trace s).

Inductive fault :=
| NullAccess
| OutOfBounds
| Indeterminate
| BadType
| ReadOnly
| BadFree
| OutOfFuel.

Inductive result (A : Type) :=
| Ok (a : A)
| Fault (f : fault).
Arguments Ok {A} a.
Arguments Fault {A} f.

Definition C (A : Type) : Type := state -> result (A * state).

Definition ret {A} (a : A) : C A := fun s => Ok (a, s).
Definition bind {A B} (c : C A) (k : A -> C B) : C B :=
  fun s => match c s with
           | Ok (a, s') => k a s'
           | Fault f => Fault f
           end.
Definition fail {A} (f : fault) : C A := fun _ => Fault f.
Definition lift {A} (r : result A) : C A :=
  fun s => match r with Ok a => Ok (a, s) | Fault f => Fault f end.

End Mem.

Export Mem.

Notation "'let*' x ':=' c 'in' k" := (bind c (fun x => k))
  (at level 10, x name, c at level 100, k at level 200).
Notation "c ';;' k" := (bind c (fun _ => k))
  (at level 100, k at level 200, right associativity).

(** ** The C library, as ISO C describes the functions the shim calls *)

Module Libc.
Import CInt.

Definition NUL : byte := x00.
Definition is_nul (c : byte) : bool := Byte.eqb c NUL.

Definition lit (s : string) : ptr := Lit (list_byte_of_string s).

(** The storage of a block read through a [char] lvalue.  Memory is
    typed block by block and a pointer addresses a whole block: the
    bytes of an [int32_t] array or of a record are not modelled, so a
    [char] access to one is reported as [BadType]. *)
Definition chars_of (o : object) : result (list (option byte)) :=
  match o with
  | Raw n => Ok (replicate (Z.to_nat n) None)
  | Chars cs => Ok cs
  | _ => Fault BadType
  end.

(** The string that starts a buffer: its bytes before the first
    terminator.  Running off the buffer, or onto a byte that was never
    written, is undefined. *)
Fixpoint cstr (cs : list (option byte)) : result (list byte) :=
  match cs with
  | [] => Fault OutOfBounds
  | None :: _ => Fault Indeterminate
  | Some c :: cs' =>
      if is_nul c then Ok []
      else match cstr cs' with
           | Ok bs => Ok (c :: bs)
           | Fault f => Fault f
           end
  end.

Definition load_chars (p : ptr) : C (list (option byte)) :=
  fun s =>
    match p with
    | NULL => Fault NullAccess
    | Lit l => Ok (map Some l ++ [Some NUL], s)
    | Ptr b => match heap s !! b with
               | Some o => lift (chars_of o) s
               | None => Fault OutOfBounds
               end
    end.

Definition store_chars (dst : ptr) (bs : list byte) : C unit :=
  fun s =>
    match dst with
    | NULL => Fault NullAccess
    | Lit _ => Fault ReadOnly
    | Ptr b =>
        match heap s !! b with
        | Some o =>
            match chars_of o with
            | Ok cs =>
                if Z.of_nat (length bs) <=? Z.of_nat (length cs)
                then Ok (tt, set_heap (<[b := Chars (map Some bs ++ drop (length bs) cs)]> (heap s)) s)
                else Fault OutOfBounds
            | Fault f => Fault f
            end
        | None => Fault OutOfBounds
        end
    end.

Definition read_cstr (p : ptr) : C (list byte) :=
  let* cs := load_chars p in lift (cstr cs).

(** [size_t strlen(const char *s)] *)
Definition strlen (s : ptr) : C Z :=
  let* bs := read_cstr s in ret (size_of_nat (length bs)).

(** [char *strcpy(char *dst, const char *src)] *)
Definition strcpy (dst src : ptr) : C ptr :=
  let* bs := read_cstr src in
  store_chars dst (bs ++ [NUL]) ;;
  ret dst.

(** [void *malloc(size_t size)]: the environment decides whether memory
    is found ([mallocs], one answer per call; none left means none
    found). *)
Definition malloc (size : Z) : C ptr :=
  fun s =>
    match mallocs s with
    | true :: rest =>
        let b := fresh (dom (heap s)) in
        Ok (Ptr b, mkState (<[b := Raw size]> (heap s)) rest (clock s)
                           (trace s ++ [EvMalloc size (Ptr b)]))
    | _ =>
        Ok (NULL, mkState (heap s) (tail (mallocs s)) (clock s)
                          (trace s ++ [EvMalloc size NULL]))
    end.

(** [void free(void *p)]: nothing for a null pointer; releasing
    anything but a live block is undefined. *)
Definition free (p : ptr) : C unit :=
  fun s =>
    match p with
    | NULL => Ok (tt, s)
    | Lit _ => Fault BadFree
    | Ptr b =>
        match heap s !! b with
        | Some _ => Ok (tt, mkState (delete b (heap s)) (mallocs s) (clock s)
                                    (trace s ++ [EvFree b]))
        | None => Fault BadFree
        end
    end.

(** [time(NULL)]: the calendar time of the environment, in seconds. *)
Definition time : C Z := fun s => Ok (clock s, s).

(** A format string, read: runs of plain bytes and [%s] conversions. *)
Inductive directive :=
| Plain (bs : list byte)
| ConvS.

Definition plain (c : byte) (ds : list directive) : list directive :=
  match ds with
  | Plain bs :: ds' => Plain (c :: bs) :: ds'
  | _ => Plain [c] :: ds
  end.

Fixpoint parse (fmt : list byte) : list directive :=
  match fmt with
  | [] => []
  | c :: fmt' =>
      match fmt' with
      | d :: fmt'' =>
          if Byte.eqb c "%" && Byte.eqb d "s" then ConvS :: parse fmt''
          else plain c (parse fmt')
      | [] => [Plain [c]]
      end
  end.

(** The bytes a format produces after [out], directive by directive.
    The count of bytes produced is an [int].  ISO C does not say what
    becomes of an output that is longer than [INT_MAX]; the model
    follows the GNU C library, where the bytes of a directive are
    produced and then counted, and once the count has passed [INT_MAX]
    the call stops and fails (EOVERFLOW).  The boolean tells whether
    the count stayed an [int] to the end. *)
Fixpoint format (fmt : list directive) (args : list ptr) (out : list byte)
  : C (list byte * bool) :=
  if INT_MAX <? Z.of_nat (length out) then ret (out, false)
  else
    match fmt with
    | [] => ret (out, true)
    | Plain bs :: fmt' => format fmt' args (out ++ bs)
    | ConvS :: fmt' =>
        match args with
        | a :: args' =>
            let* bs := read_cstr a in
            format fmt' args' (out ++ bs)
        | [] => fail BadType
        end
    end.

(** [int snprintf(char *dst, size_t n, const char *fmt, ...)]: at most
    [n - 1] of the bytes produced are stored, then a terminator; nothing
    is stored when [n] is zero.  The value is the length of the output,
    or -1 when that is not an [int]. *)
Definition snprintf (dst : ptr) (n : Z) (fmt : string) (args : list ptr) : C Z :=
  let* r := format (parse (list_byte_of_string fmt)) args [] in
  (if n =? 0 then ret tt
   else store_chars dst (take (Z.to_nat (n - 1)) (fst r) ++ [NUL])) ;;
  ret (if snd r then Z.of_nat (length (fst r)) else -1).

(** [array[i]] on a pointer to [int32_t]. *)
Definition load_int (array : ptr) (i : Z) : C Z :=
  fun s =>
    match array with
    | NULL => Fault NullAccess
    | Lit _ => Fault BadType
    | Ptr b =>
        match heap s !! b with
        | Some (Ints xs) =>
            if i <? 0 then Fault OutOfBounds
            else match xs !! Z.to_nat i with
                 | Some x => Ok (x, s)
                 | None => Fault OutOfBounds
                 end
        | Some (Raw _) => Fault Indeterminate
        | Some _ => Fault BadType
        | None => Fault OutOfBounds
        end
    end.

(** [sizeof(SystemInfo)]: two pointers and an [int64_t]. *)
Definition sizeof_SystemInfo : Z := 24.

Definition info_of (o : object) : result SystemInfo :=
  match o with
  | Info si => Ok si
  | Raw n => if sizeof_SystemInfo <=? n then Ok (mkInfo None None None)
             else Fault OutOfBounds
  | _ => Fault BadType
  end.

Definition load_info (info : ptr) : C SystemInfo :=
  fun s =>
    match info with
    | NULL => Fault NullAccess
    | Lit _ => Fault BadType
    | Ptr b => match heap s !! b with
               | Some o => lift (info_of o) s
               | None => Fault OutOfBounds
               end
    end.

Definition store_info (info : ptr) (upd : SystemInfo -> SystemInfo) : C unit :=
  let* si := load_info info in
  fun s =>
    match info with
    | Ptr b => Ok (tt, set_heap (<[b := Info (upd si)]> (heap s)) s)
    | _ => Fault NullAccess
    end.

(** [info->field] as an rvalue. *)
Definition load_field {A} (info : ptr) (field : SystemInfo -> option A) : C A :=
  let* si := load_info info in
  match field si with
  | Some v => ret v
  | None => fail Indeterminate
  end.

(** [info->field = v] *)
Definition set_platform (v : ptr) (si : SystemInfo) : SystemInfo :=
  mkInfo (Some v) (version si) (timestamp si).
Definition set_version (v : ptr) (si : SystemInfo) : SystemInfo :=
  mkInfo (platform si) (Some v) (timestamp si).
Definition set_timestamp (v : Z) (si : SystemInfo) : SystemInfo :=
  mkInfo (platform si) (version si) (Some v).

End Libc.

(** ** native_ffi.c *)

Module Native.
Import CInt Libc.

(** [int32_t native_add(int32_t a, int32_t b)] *)
Definition native_add (a b : Z) : Z := add32 a b.

(** [int32_t native_string_length(const char* str)] *)
Definition native_string_length (str : ptr) : C Z :=
  if is_null str then ret 0
  else
    let* n := strlen str in
    ret (cast_int32 n).

(** [const char* native_get_greeting(const char* name)] *)
Definition native_get_greeting (name : ptr) : C ptr :=
  let name := if is_null name then lit "World" else name in
  let* l1 := strlen (lit "Hello, ") in
  let* l2 := strlen name in
  let* l3 := strlen (lit "!") in
  let greeting_size := size_add (size_add (size_add l1 l2) l3) 1 in
  let* greeting := malloc greeting_size in
  (if negb (is_null greeting)
   then snprintf greeting greeting_size "Hello, %s!" [name] ;; ret tt
   else ret tt) ;;
  ret greeting.

(** The [for] loop of [native_sum_array]; [fuel] bounds the number of
    iterations still allowed. *)
Fixpoint sum_loop (array : ptr) (length : Z) (fuel : nat) (i sum : Z) : C Z :=
  if i <? length then
    match fuel with
    | O => fail OutOfFuel
    | S fuel' =>
        let* x := load_int array i in
        sum_loop array length fuel' (add32 i 1) (add32 sum x)
    end
  else ret sum.

(** [int32_t native_sum_array(const int32_t* array, int32_t length)] *)
Definition native_sum_array (array : ptr) (length : Z) : C Z :=
  if is_null array || (length <=? 0) then ret 0
  else sum_loop array length (Z.to_nat length) 0 0.

(** [void native_free_string(char* str)] *)
Definition native_free_string (str : ptr) : C unit :=
  if negb (is_null str) then free str else ret tt.

(** [SystemInfo* native_get_system_info(void)] *)
Definition native_get_system_info : C ptr :=
  let* info := malloc sizeof_SystemInfo in
  if is_null info then ret NULL
  else
    let* platform := malloc 4 in
    strcpy platform (lit "iOS") ;;
    store_info info (set_platform platform) ;;
    let* version := malloc 6 in
    strcpy version (lit "1.0.0") ;;
    store_info info (set_version version) ;;
    let* t := time in
    store_info info (set_timestamp (cast_int64 t)) ;;
    ret info.

(** [void native_free_system_info(SystemInfo* info)] *)
Definition native_free_system_info (info : ptr) : C unit :=
  if negb (is_null info) then
    let* p := load_field info platform in
    (if negb (is_null p) then free p else ret tt) ;;
    let* v := load_field info version in
    (if negb (is_null v) then free v else ret tt) ;;
    free info
  else ret tt.

End Native.

Export CInt Libc Native.

(** * Vocabulary of the statements *)

Global Instance byte_eq_dec : EqDecision byte := Byte.byte_eq_dec.

(** ** Integers *)

(** The wraparound law in the words of the specification: the sum
    modulo 2^32, reinterpreted as a signed 32-bit integer. *)
Definition reinterpret_signed32 (u : Z) : Z :=
  if u <? 2 ^ 31 then u else u - 2 ^ 32.
Definition wraparound32 (z : Z) : Z := reinterpret_signed32 (z mod 2 ^ 32).

(** The arithmetic sum of a list, and of its first [n] elements. *)
Definition sum_list (xs : list Z) : Z := foldr Z.add 0 xs.
Definition sum_first (n : Z) (xs : list Z) : Z := sum_list (take (Z.to_nat n) xs).

(** ** Strings and records in memory *)

(** [cstring_at s p bs]: in state [s], [p] points to the
    null-terminated string whose bytes, terminator excluded, are [bs]. *)
Inductive cstring_at (s : state) : ptr -> list byte -> Prop :=
| cstring_heap b bs rest :
    NUL ∉ bs ->
    heap s !! b = Some (Chars (map Some bs ++ Some NUL :: rest)) ->
    cstring_at s (Ptr b) bs
| cstring_lit l bs rest :
    NUL ∉ bs ->
    l ++ [NUL] = bs ++ NUL :: rest ->
    cstring_at s (Lit l) bs.

(** What a record from [native_get_system_info] looks like in memory. *)
Definition system_info_at (s : state) (p : ptr) (plat ver : list byte) (t : Z) : Prop :=
  exists b bp bv,
    p = Ptr b
    /\ heap s !! b = Some (Info (mkInfo (Some (Ptr bp)) (Some (Ptr bv)) (Some t)))
    /\ heap s !! bp = Some (Chars (map Some (plat ++ [NUL])))
    /\ heap s !! bv = Some (Chars (map Some (ver ++ [NUL])))
    /\ b <> bp /\ b <> bv /\ bp <> bv.

(** ** [native_get_greeting] *)

(** The text the specification promises: "Hello, {name}!". *)
Definition greeting_text (name : list byte) : list byte :=
  list_byte_of_string "Hello, " ++ name ++ list_byte_of_string "!".

(** What [snprintf] produces for that format: the whole text, or the
    text without its last byte when "Hello, " and the name together
    already pass [INT_MAX]. *)
Definition greeting_output (name : list byte) : list byte :=
  if INT_MAX <? Z.of_nat (length (list_byte_of_string "Hello, " ++ name))
  then list_byte_of_string "Hello, " ++ name
  else greeting_text name.

(** What [snprintf] leaves in a fresh block of [n] bytes. *)
Definition snprintf_stored (n : Z) (out : list byte) : list (option byte) :=
  map Some (take (Z.to_nat (n - 1)) out ++ [NUL])
  ++ drop (length (take (Z.to_nat (n - 1)) out ++ [NUL])) (replicate (Z.to_nat n) None).

Definition greeting_size (bs : list byte) : Z :=
  size_add (size_add (size_add (size_of_nat 7) (size_of_nat (length bs)))
              (size_of_nat 1)) 1.

(** [name] after the null check at the top of [native_get_greeting]. *)
Definition greeting_name (name : ptr) : ptr :=
  if is_null name then lit "World" else name.

(** The state [native_get_greeting] leaves when memory is found and the
    greeting fits a [size_t]. *)
Definition greeting_state (s : state) (bs : list byte) : state :=
  mkState (<[fresh (dom (heap s)) := Chars (map Some (greeting_text bs ++ [NUL]))]> (heap s))
          (tail (mallocs s)) (clock s)
          (trace s ++ [EvMalloc (Z.of_nat (length bs) + 9) (Ptr (fresh (dom (heap s))))]).

(** ** Releasing memory *)

(** What releasing the target of a pointer does to the heap and to the
    trace: nothing for a null pointer. *)
Definition release (p : ptr) (h : gmap block object) : gmap block object :=
  match p with Ptr b => delete b h | _ => h end.
Definition frees (p : ptr) : list event :=
  match p with Ptr b => [EvFree b] | _ => [] end.

(** A pointer that may be passed through the null check to [free]:
    null, or the address of a live block. *)
Definition releasable (h : gmap block object) (p : ptr) : Prop :=
  match p with
  | NULL => True
  | Ptr b => is_Some (h !! b)
  | Lit _ => False
  end.

(** ** States for the examples *)

(** A heap that holds one [int32_t] array, for the examples. *)
Definition array_state (b : block) (xs : list Z) : state :=
  mkState {[ b := Ints xs ]} [] 0 [].
Arguments array_state b%_positive xs%_Z.

(** A heap that holds one string, and a string of [n] letters, for the
    examples. *)
Definition string_state (b : block) (bs : list byte) (ms : list bool) : state :=
  mkState {[ b := Chars (map Some bs ++ [Some NUL]) ]} ms 0 [].
Arguments string_state b%_positive bs ms.

Definition long_string (n : Z) : list byte := replicate (Z.to_nat n) "a"%byte.

(** * Properties *)

(** ** Integer arithmetic *)

Ltac unfold_ints :=
  unfold native_add, add32, cast_int32, cast_int64, of_u32, to_u32, int32, int64,
    INT32_MIN, INT32_MAX, INT_MAX, size_add, size_of_nat, size_t, SIZE_WIDTH in *;
  change (2 ^ 32) with 4294967296 in *;
  change (2 ^ 31) with 2147483648 in *;
  change (2 ^ 63) with 9223372036854775808 in *;
  change (2 ^ 64) with 18446744073709551616 in *.

Ltac solve_ints :=
  unfold_ints; repeat case_match; Z.to_euclidean_division_equations; lia.

Section Integers.

Lemma cast_int32_range z : int32 (cast_int32 z).
Proof. solve_ints. Qed.

Lemma cast_int32_id z : int32 z -> cast_int32 z = z.
Proof. solve_ints. Qed.

Lemma add32_cast a b : add32 a b = cast_int32 (a + b).
Proof. unfold add32, cast_int32, to_u32. by rewrite <- Z.add_mod by done. Qed.

Lemma cast_int32_add_l a b : cast_int32 (cast_int32 a + b) = cast_int32 (a + b).
Proof. solve_ints. Qed.

Lemma cast_int32_size n : cast_int32 (size_of_nat n) = cast_int32 (Z.of_nat n).
Proof. solve_ints. Qed.

Lemma cast_int64_id z : int64 z -> cast_int64 z = z.
Proof. solve_ints. Qed.

Lemma cast_int32_wraparound z : cast_int32 z = wraparound32 z.
Proof. reflexivity. Qed.

Lemma wraparound32_outside z : ~ int32 z -> wraparound32 z <> z.
Proof.
  intros Hz Heq. apply Hz. rewrite <- Heq, <- cast_int32_wraparound.
  apply cast_int32_range.
Qed.

End Integers.

(** C2.  For all 32-bit signed [a] and [b], [native_add a b] is
    [(a + b) mod 2^32] reinterpreted as a signed 32-bit integer: it is
    again a 32-bit signed integer, it is [a + b] when that fits, and it
    is off by exactly [2^32] when the sum overflows upwards or
    downwards.  The function is total: overflow is not an error. *)
Theorem native_add_wraparound (a b : Z) :
  int32 a -> int32 b ->
  native_add a b = wraparound32 (a + b)
  /\ int32 (native_add a b)
  /\ (int32 (a + b) -> native_add a b = a + b)
  /\ (INT32_MAX < a + b -> native_add a b = a + b - 2 ^ 32)
  /\ (a + b < INT32_MIN -> native_add a b = a + b + 2 ^ 32).
Proof.
  intros Ha Hb. unfold native_add. rewrite add32_cast.
  split; [apply cast_int32_wraparound|].
  split; [apply cast_int32_range|].
  split; [apply cast_int32_id|].
  split; intros; solve_ints.
Qed.

Lemma native_add_wraparound_witness :
  native_add 2147483647 1 = wraparound32 (2147483647 + 1)
  /\ native_add 2147483647 1 = -2147483648.
Proof.
  split.
  - apply (native_add_wraparound 2147483647 1); unfold_ints; lia.
  - reflexivity.
Defined.

(** ** Running the state-and-fault monad *)

Section Monad.
Context {A B : Type}.

Lemma bind_ok (c : C A) (k : A -> C B) s a s' :
  c s = Ok (a, s') -> bind c k s = k a s'.
Proof. unfold bind. by intros ->. Qed.

Lemma bind_fault (c : C A) (k : A -> C B) s f :
  c s = Fault f -> bind c k s = Fault f.
Proof. unfold bind. by intros ->. Qed.

End Monad.

(** ** [native_sum_array] *)

Lemma native_sum_array_absent array len s :
  array = NULL \/ len <= 0 -> native_sum_array array len s = Ok (0, s).
Proof.
  intros [-> | Hlen]; unfold native_sum_array; [done|].
  destruct (len <=? 0) eqn:E; [|lia]. by rewrite orb_true_r.
Qed.

Section SumArray.

(** An array [xs] at block [b], and a length within it. *)
Context (s : state) (b : block) (xs : list Z) (len : Z).
Hypothesis array_at : heap s !! b = Some (Ints xs).
Hypothesis len_within : len <= Z.of_nat (length xs).
Hypothesis len_int32 : int32 len.

Lemma load_int_at i x :
  0 <= i -> xs !! Z.to_nat i = Some x -> load_int (Ptr b) i s = Ok (x, s).
Proof.
  intros Hi Hx. unfold load_int. rewrite array_at.
  destruct (i <? 0) eqn:E; [lia|]. by rewrite Hx.
Qed.

(** The loop invariant: from index [i] with accumulator [acc], and with
    fuel for the iterations that remain, the loop ends with [acc] plus
    the elements from [i] up to [len], wrapped. *)
Lemma sum_loop_spec fuel :
  forall i acc,
    0 <= i <= len -> (Z.to_nat (len - i) <= fuel)%nat -> int32 acc ->
    sum_loop (Ptr b) len fuel i acc s
    = Ok (cast_int32 (acc + sum_list (take (Z.to_nat (len - i)) (drop (Z.to_nat i) xs))), s).
Proof.
  induction fuel as [|fuel IH]; intros i acc Hi Hfuel Hacc.
  - simpl. destruct (i <? len) eqn:E; [lia|].
    replace (Z.to_nat (len - i)) with 0%nat by lia.
    simpl. unfold ret. by rewrite Z.add_0_r, cast_int32_id.
  - simpl. destruct (i <? len) eqn:E.
    + destruct (lookup_lt_is_Some_2 xs (Z.to_nat i)) as [x Hx]; [lia|].
      rewrite (bind_ok _ _ _ _ _ (load_int_at i x (proj1 Hi) Hx)).
      assert (Hi1 : add32 i 1 = i + 1).
      { rewrite add32_cast. apply cast_int32_id. unfold_ints. lia. }
      rewrite Hi1, IH; [|lia|lia|rewrite add32_cast; apply cast_int32_range].
      f_equal. f_equal.
      replace (Z.to_nat (len - i)) with (S (Z.to_nat (len - (i + 1)))) by lia.
      rewrite (drop_S _ _ _ Hx). simpl.
      replace (S (Z.to_nat i)) with (Z.to_nat (i + 1)) by lia.
      rewrite add32_cast, cast_int32_add_l. f_equal. lia.
    + replace (Z.to_nat (len - i)) with 0%nat by lia.
      simpl. unfold ret. by rewrite Z.add_0_r, cast_int32_id.
Qed.

Lemma native_sum_array_wraps :
  0 < len -> native_sum_array (Ptr b) len s = Ok (cast_int32 (sum_first len xs), s).
Proof.
  intros Hpos. unfold native_sum_array. simpl.
  destruct (len <=? 0) eqn:E; [lia|].
  rewrite sum_loop_spec; [|lia|lia|unfold_ints; lia].
  by rewrite Z.sub_0_r, drop_0.
Qed.

End SumArray.

(** C3, as the code has it.  [native_sum_array] returns 0, and leaves
    memory alone, whenever the array pointer is null or the length is
    zero or negative.  Otherwise, on an array with at least [len]
    elements, it returns the sum of the first [len] elements wrapped to
    32 bits, which is the arithmetic sum whenever that sum is itself a
    32-bit signed integer. *)
Theorem native_sum_array_spec :
  (forall array len s,
      array = NULL \/ len <= 0 -> native_sum_array array len s = Ok (0, s))
  /\ (forall b xs len s,
        heap s !! b = Some (Ints xs) ->
        0 < len <= Z.of_nat (length xs) -> int32 len ->
        native_sum_array (Ptr b) len s = Ok (wraparound32 (sum_first len xs), s)
        /\ (int32 (sum_first len xs) ->
            native_sum_array (Ptr b) len s = Ok (sum_first len xs, s))).
Proof.
  split; [apply native_sum_array_absent|].
  intros b xs len s Hb Hlen Hlen32.
  rewrite (native_sum_array_wraps s b xs len Hb (proj2 Hlen) Hlen32 (proj1 Hlen)).
  split; [done|]. intros Hsum. by rewrite cast_int32_id.
Qed.

Lemma native_sum_array_spec_witness :
  native_sum_array NULL 7 (array_state 1 [1; 2; 3]) = Ok (0, array_state 1 [1; 2; 3])
  /\ native_sum_array (Ptr 1) (-1) (array_state 1 [1; 2; 3]) = Ok (0, array_state 1 [1; 2; 3])
  /\ native_sum_array (Ptr 1) 3 (array_state 1 [1; 2; 3]) = Ok (6, array_state 1 [1; 2; 3]).
Proof.
  destruct native_sum_array_spec as [Habsent Hsum].
  split; [apply Habsent; by left|].
  split; [apply Habsent; right; lia|].
  apply (Hsum 1%positive [1; 2; 3] 3 (array_state 1 [1; 2; 3])).
  - reflexivity.
  - simpl. lia.
  - unfold_ints. lia.
  - unfold_ints. vm_compute. split; discriminate.
Defined.

(** C3 as the specification words it fails: on the two-element array
    [INT32_MAX; 1] the function returns [INT32_MIN], not the arithmetic
    sum 2147483648. *)
Lemma native_sum_array_not_arithmetic :
  heap (array_state 1 [2147483647; 1]) !! 1%positive = Some (Ints [2147483647; 1])
  /\ sum_first 2 [2147483647; 1] = 2147483648
  /\ native_sum_array (Ptr 1) 2 (array_state 1 [2147483647; 1])
     = Ok (-2147483648, array_state 1 [2147483647; 1])
  /\ native_sum_array (Ptr 1) 2 (array_state 1 [2147483647; 1])
     <> Ok (sum_first 2 [2147483647; 1], array_state 1 [2147483647; 1]).
Proof.
  split; [reflexivity|]. split; [reflexivity|].
  assert (H : native_sum_array (Ptr 1) 2 (array_state 1 [2147483647; 1])
              = Ok (-2147483648, array_state 1 [2147483647; 1])) by reflexivity.
  split; [exact H|]. rewrite H. intros Heq. inversion Heq.
Qed.

(** C9.  The accumulation is 32-bit wrapping addition: on a non-null
    array and a positive length whose mathematical sum is not a 32-bit
    signed integer, [native_sum_array] returns normally, with that sum
    reduced modulo 2^32 and reinterpreted as signed; the value is a
    32-bit integer and so differs from the mathematical sum. *)
Theorem native_sum_array_overflow b xs len s :
  heap s !! b = Some (Ints xs) ->
  0 < len <= Z.of_nat (length xs) -> int32 len ->
  ~ int32 (sum_first len xs) ->
  native_sum_array (Ptr b) len s = Ok (wraparound32 (sum_first len xs), s)
  /\ int32 (wraparound32 (sum_first len xs))
  /\ wraparound32 (sum_first len xs) <> sum_first len xs.
Proof.
  intros Hb Hlen Hlen32 Hout.
  split; [by rewrite (native_sum_array_wraps s b xs len Hb (proj2 Hlen) Hlen32 (proj1 Hlen))|].
  split; [apply cast_int32_range | by apply wraparound32_outside].
Qed.

Lemma native_sum_array_overflow_witness :
  ~ int32 (sum_first 3 [-2147483648; -1; -5])
  /\ native_sum_array (Ptr 1) 3 (array_state 1 [-2147483648; -1; -5])
     = Ok (2147483642, array_state 1 [-2147483648; -1; -5]).
Proof.
  assert (Hout : ~ int32 (sum_first 3 [-2147483648; -1; -5])).
  { vm_compute. intros [H _]. by apply H. }
  split; [exact Hout|].
  apply (native_sum_array_overflow 1%positive [-2147483648; -1; -5] 3
           (array_state 1 [-2147483648; -1; -5])).
  - reflexivity.
  - simpl. lia.
  - unfold_ints. lia.
  - exact Hout.
Defined.

(** ** Strings in memory *)

Ltac no_nul :=
  match goal with
  | |- ?P => apply (bool_decide_unpack P); vm_compute; exact I
  end.

Section Strings.

Lemma is_nul_false c : c <> NUL -> is_nul c = false.
Proof.
  intros Hc. unfold is_nul. destruct (Byte.eqb c NUL) eqn:E; [|done].
  by apply Byte.byte_dec_bl in E.
Qed.

Lemma cstr_prefix bs rest :
  NUL ∉ bs -> cstr (map Some bs ++ Some NUL :: rest) = Ok bs.
Proof.
  induction bs as [|c bs IH]; intros Hnul; [done|].
  apply not_elem_of_cons in Hnul as [Hc Hbs]. simpl.
  rewrite is_nul_false by done. by rewrite IH.
Qed.

Lemma read_cstr_at s p bs : cstring_at s p bs -> read_cstr p s = Ok (bs, s).
Proof.
  intros [b bs' rest Hnul Hb | l bs' rest Hnul Hl]; unfold read_cstr, bind, load_chars.
  - rewrite Hb. simpl. by rewrite cstr_prefix.
  - change [Some NUL] with (map Some [NUL]). rewrite <- map_app, Hl, map_app. simpl.
    by rewrite cstr_prefix.
Qed.

Lemma cstring_at_lit s l : NUL ∉ l -> cstring_at s (Lit l) l.
Proof. intros Hl. by apply (cstring_lit s l l []). Qed.

Lemma strlen_at s p bs :
  cstring_at s p bs -> strlen p s = Ok (size_of_nat (length bs), s).
Proof. intros H. unfold strlen. by rewrite (bind_ok _ _ _ _ _ (read_cstr_at _ _ _ H)). Qed.

Lemma native_string_length_at s p bs :
  cstring_at s p bs ->
  native_string_length p s = Ok (cast_int32 (Z.of_nat (length bs)), s).
Proof.
  intros H. unfold native_string_length.
  replace (is_null p) with false by (by destruct H).
  rewrite (bind_ok _ _ _ _ _ (strlen_at _ _ _ H)). unfold ret.
  by rewrite cast_int32_size.
Qed.

End Strings.

Lemma long_string_length n : 0 <= n -> Z.of_nat (length (long_string n)) = n.
Proof. intros Hn. unfold long_string. rewrite length_replicate. lia. Qed.

Lemma long_string_no_nul n : NUL ∉ long_string n.
Proof. unfold long_string. intros [H _]%elem_of_replicate. discriminate. Qed.

Lemma cstring_at_string_state b bs ms :
  NUL ∉ bs -> cstring_at (string_state b bs ms) (Ptr b) bs.
Proof.
  intros Hnul. apply (cstring_heap _ b bs []); [done|].
  unfold string_state. simpl. apply lookup_singleton_eq.
Qed.

(** ** [native_get_greeting] *)

Section Greeting.

Lemma greeting_size_nonneg bs : 0 <= greeting_size bs.
Proof. unfold greeting_size. solve_ints. Qed.

Lemma greeting_size_exact bs :
  Z.of_nat (length bs) + 9 < 2 ^ 64 -> greeting_size bs = Z.of_nat (length bs) + 9.
Proof. unfold greeting_size. intros H. solve_ints. Qed.

Lemma length_greeting_text bs :
  length (greeting_text bs) = (length bs + 8)%nat.
Proof. unfold greeting_text. rewrite !length_app. simpl. lia. Qed.

Lemma greeting_text_no_nul bs : NUL ∉ bs -> NUL ∉ greeting_text bs.
Proof.
  intros Hbs. unfold greeting_text. rewrite !not_elem_of_app.
  split; [no_nul|]. split; [done|no_nul].
Qed.

(** A format of the shape [pre%spost], with a short [pre]. *)
Lemma format_around s pre post name bs :
  cstring_at s name bs ->
  Z.of_nat (length pre) <= INT_MAX ->
  exists ok,
    format [Plain pre; ConvS; Plain post] [name] [] s
    = Ok ((if INT_MAX <? Z.of_nat (length (pre ++ bs)) then pre ++ bs
           else pre ++ bs ++ post, ok), s).
Proof.
  intros Hname Hpre. cbn [format app length].
  change (INT_MAX <? Z.of_nat 0) with false. cbv iota.
  destruct (INT_MAX <? Z.of_nat (length pre)) eqn:E1; [apply Z.ltb_lt in E1; lia|].
  rewrite (bind_ok _ _ _ _ _ (read_cstr_at _ _ _ Hname)).
  destruct (INT_MAX <? Z.of_nat (length (pre ++ bs))); [by exists false|].
  rewrite <- app_assoc.
  destruct (INT_MAX <? Z.of_nat (length (pre ++ bs ++ post)));
    [by exists false | by exists true].
Qed.

Lemma format_hello s name bs :
  cstring_at s name bs ->
  exists ok,
    format (parse (list_byte_of_string "Hello, %s!")) [name] [] s
    = Ok ((greeting_output bs, ok), s).
Proof.
  intros Hname.
  change (parse (list_byte_of_string "Hello, %s!"))
    with [Plain (list_byte_of_string "Hello, "); ConvS; Plain (list_byte_of_string "!")].
  apply (format_around s _ _ name bs Hname). vm_compute. discriminate.
Qed.

Lemma snprintf_hello s b n name bs :
  heap s !! b = Some (Raw n) -> 0 <= n -> cstring_at s name bs ->
  exists r,
    snprintf (Ptr b) n "Hello, %s!" [name] s
    = Ok (r, if n =? 0 then s
             else set_heap (<[b := Chars (snprintf_stored n (greeting_output bs))]>
                              (heap s)) s).
Proof.
  intros Hb Hn Hname. unfold snprintf.
  destruct (format_hello _ _ _ Hname) as [ok Hformat].
  rewrite (bind_ok _ _ _ _ _ Hformat). cbn [fst snd].
  generalize (greeting_output bs) as out. intros out.
  destruct (n =? 0) eqn:E; [by eexists|].
  unfold bind, store_chars. rewrite Hb. simpl chars_of. cbv iota beta.
  rewrite length_replicate.
  destruct (_ <=? _) eqn:E'; [by eexists|].
  apply Z.leb_gt in E'. apply Z.eqb_neq in E.
  rewrite length_app, length_take in E'. simpl length in E'. lia.
Qed.


Lemma greeting_output_whole bs :
  Z.of_nat (length bs) + 7 <= INT_MAX -> greeting_output bs = greeting_text bs.
Proof.
  intros Hfit. unfold greeting_output. rewrite length_app.
  change (length (list_byte_of_string "Hello, ")) with 7%nat.
  destruct (INT_MAX <? _) eqn:E; [|done]. apply Z.ltb_lt in E. lia.
Qed.


Lemma snprintf_stored_exact out :
  snprintf_stored (Z.of_nat (length out) + 1) out = map Some (out ++ [NUL]).
Proof.
  unfold snprintf_stored.
  replace (Z.to_nat (Z.of_nat (length out) + 1 - 1)) with (length out) by lia.
  rewrite firstn_all, drop_ge, app_nil_r; [done|].
  rewrite length_replicate, length_app. simpl. lia.
Qed.

Lemma cstring_at_world s : cstring_at s (lit "World") (list_byte_of_string "World").
Proof. apply cstring_at_lit. no_nul. Qed.

Lemma cstring_at_greeting_name s name bs :
  cstring_at s name bs -> cstring_at s (greeting_name name) bs.
Proof. intros H. destruct H; simpl; econstructor; eauto. Qed.

Lemma cstring_at_alloc s p bs b o ms c t :
  cstring_at s p bs -> b ∉ dom (heap s) ->
  cstring_at (mkState (<[b := o]> (heap s)) ms c t) p bs.
Proof.
  intros [b' bs' rest Hnul Hb' | l bs' rest Hnul Hl] Hfresh.
  - apply (cstring_heap _ b' bs' rest); [done|]. simpl.
    rewrite lookup_insert_ne; [done|].
    intros ->. apply Hfresh, elem_of_dom. by rewrite Hb'.
  - by apply (cstring_lit _ l bs' rest).
Qed.

Lemma strlen_lit s (l : string) :
  NUL ∉ list_byte_of_string l ->
  strlen (lit l) s = Ok (size_of_nat (length (list_byte_of_string l)), s).
Proof. intros Hl. by apply strlen_at, cstring_at_lit. Qed.

(** The three [strlen] calls that compute [greeting_size]. *)
Ltac measure_greeting name bs Hname :=
  unfold native_get_greeting; cbv zeta; fold (greeting_name name);
  rewrite (bind_ok _ _ _ _ _ (strlen_lit _ "Hello, " ltac:(no_nul)));
  rewrite (bind_ok _ _ _ _ _ (strlen_at _ _ _ Hname));
  rewrite (bind_ok _ _ _ _ _ (strlen_lit _ "!" ltac:(no_nul)));
  change (length (list_byte_of_string "Hello, ")) with 7%nat;
  change (length (list_byte_of_string "!")) with 1%nat;
  fold (greeting_size bs).

Lemma native_get_greeting_no_memory s name bs :
  cstring_at s (greeting_name name) bs ->
  (forall rest, mallocs s <> true :: rest) ->
  native_get_greeting name s
  = Ok (NULL, mkState (heap s) (tail (mallocs s)) (clock s)
                      (trace s ++ [EvMalloc (greeting_size bs) NULL])).
Proof.
  intros Hname Hm. measure_greeting name bs Hname.
  unfold bind at 1, malloc.
  destruct (mallocs s) as [|[|] rest] eqn:E; [done| |done].
  by destruct (Hm rest).
Qed.

Lemma native_get_greeting_memory s name bs rest :
  cstring_at s (greeting_name name) bs ->
  mallocs s = true :: rest ->
  native_get_greeting name s
  = Ok (Ptr (fresh (dom (heap s))),
        mkState (<[fresh (dom (heap s)) :=
                     if greeting_size bs =? 0 then Raw (greeting_size bs)
                     else Chars (snprintf_stored (greeting_size bs) (greeting_output bs))]>
                   (heap s))
                rest (clock s)
                (trace s ++ [EvMalloc (greeting_size bs) (Ptr (fresh (dom (heap s))))])).
Proof.
  intros Hname Hm. measure_greeting name bs Hname.
  unfold bind at 1, malloc. rewrite Hm. cbv zeta. simpl negb. cbv iota.
  set (b := fresh (dom (heap s))). set (n := greeting_size bs).
  set (s1 := mkState _ _ _ _).
  assert (Hb : heap s1 !! b = Some (Raw n)) by apply lookup_insert_eq.
  assert (Hname1 : cstring_at s1 (greeting_name name) bs).
  { apply cstring_at_alloc; [done|]. apply is_fresh. }
  destruct (snprintf_hello s1 b n _ bs Hb (greeting_size_nonneg bs) Hname1) as [r Hr].
  unfold bind. rewrite Hr.
  unfold ret. f_equal. f_equal.
  destruct (n =? 0); [done|].
  unfold set_heap, s1. simpl. by rewrite insert_insert_eq.
Qed.

End Greeting.

Lemma native_get_greeting_exact s name bs rest :
  cstring_at s (greeting_name name) bs ->
  mallocs s = true :: rest ->
  Z.of_nat (length bs) + 7 <= INT_MAX ->
  native_get_greeting name s = Ok (Ptr (fresh (dom (heap s))), greeting_state s bs).
Proof.
  intros Hname Hm Hfit.
  rewrite (native_get_greeting_memory s name bs rest Hname Hm).
  unfold greeting_state. rewrite Hm. simpl tail.
  rewrite greeting_output_whole by done.
  rewrite greeting_size_exact by (unfold_ints; lia).
  destruct (_ =? 0) eqn:E; [lia|].
  replace (Z.of_nat (length bs) + 9) with (Z.of_nat (length (greeting_text bs)) + 1)
    by (rewrite length_greeting_text; lia).
  by rewrite snprintf_stored_exact.
Qed.

Lemma cstring_at_greeting_state s bs :
  NUL ∉ bs -> cstring_at (greeting_state s bs) (Ptr (fresh (dom (heap s)))) (greeting_text bs).
Proof.
  intros Hnul. apply (cstring_heap _ _ _ []); [by apply greeting_text_no_nul|].
  unfold greeting_state. simpl heap. rewrite lookup_insert_eq.
  by rewrite map_app.
Qed.

Lemma cstring_at_no_nul s p bs : cstring_at s p bs -> NUL ∉ bs.
Proof. by intros []. Qed.






Lemma malloc_answer s :
  (exists rest, mallocs s = true :: rest) \/ (forall rest, mallocs s <> true :: rest).
Proof. destruct (mallocs s) as [|[|] rest]; [by right | left; eauto | by right]. Qed.

(** C5.  For a null or string argument [native_get_greeting] always
    returns, and what it returns is null exactly when [malloc] found no
    memory: a non-null pointer when the allocation succeeds, null when it
    fails, and no other outcome. *)
Theorem native_get_greeting_null_iff s name bs :
  name = NULL \/ cstring_at s name bs ->
  exists r s',
    native_get_greeting name s = Ok (r, s')
    /\ ((exists rest, mallocs s = true :: rest) -> r <> NULL)
    /\ ((forall rest, mallocs s <> true :: rest) -> r = NULL)
    /\ (r = NULL <-> forall rest, mallocs s <> true :: rest).
Proof.
  intros Hin.
  assert (exists bs', cstring_at s (greeting_name name) bs') as [bs' Hname].
  { destruct Hin as [-> | H].
    - eexists. apply cstring_at_world.
    - exists bs. by apply cstring_at_greeting_name. }
  destruct (malloc_answer s) as [[rest Hm] | Hno].
  - eexists _, _.
    split; [apply (native_get_greeting_memory s name bs' rest Hname Hm)|].
    split; [discriminate|].
    split; [intros H; by destruct (H rest)|].
    split; [discriminate | intros H; by destruct (H rest)].
  - eexists _, _.
    split; [apply (native_get_greeting_no_memory s name bs' Hname Hno)|].
    split; [intros [rest H]; by destruct (Hno rest)|].
    split; [done|]. by split.
Qed.

Lemma native_get_greeting_null_iff_witness :
  exists r s',
    native_get_greeting (lit "Ada") (mkState ∅ [false; true] 0 []) = Ok (r, s') /\ r = NULL.
Proof.
  destruct (native_get_greeting_null_iff (mkState ∅ [false; true] 0 []) (lit "Ada")
              (list_byte_of_string "Ada"))
    as (r & s' & Hrun & _ & Hnull & _).
  - right. apply cstring_at_lit. no_nul.
  - exists r, s'. split; [exact Hrun|]. apply Hnull. intros rest. simpl. discriminate.
Defined.
(** C6, as the code has it.  [native_string_length NULL] is 0.  For a
    pointer to a string of [length bs] bytes before its terminator the
    function always returns, leaves memory alone, and yields that count
    cast to [int32_t]: the count itself when it is at most [INT32_MAX],
    and the count wrapped to 32 bits in general. *)
Theorem native_string_length_spec :
  (forall s, native_string_length NULL s = Ok (0, s))
  /\ (forall s p bs,
        cstring_at s p bs ->
        native_string_length p s = Ok (wraparound32 (Z.of_nat (length bs)), s)
        /\ (Z.of_nat (length bs) <= INT32_MAX ->
            native_string_length p s = Ok (Z.of_nat (length bs), s))).
Proof.
  split; [done|]. intros s p bs Hp.
  rewrite (native_string_length_at s p bs Hp). split; [done|].
  intros Hlen. rewrite cast_int32_id; [done|]. unfold_ints. lia.
Qed.

Lemma native_string_length_spec_witness :
  cstring_at (string_state 1 (long_string 5) []) (Ptr 1) (long_string 5)
  /\ native_string_length (Ptr 1) (string_state 1 (long_string 5) [])
     = Ok (5, string_state 1 (long_string 5) []).
Proof.
  assert (H : cstring_at (string_state 1 (long_string 5) []) (Ptr 1) (long_string 5)).
  { apply cstring_at_string_state. no_nul. }
  split; [exact H|].
  destruct native_string_length_spec as [_ Hlen].
  apply (Hlen _ _ _ H). vm_compute. discriminate.
Defined.

Lemma long_string_truncated n :
  0 <= n ->
  native_string_length (Ptr 1) (string_state 1 (long_string n) [])
  = Ok (cast_int32 n, string_state 1 (long_string n) []).
Proof.
  intros Hn.
  rewrite (native_string_length_at _ _ (long_string n)).
  - by rewrite long_string_length.
  - apply cstring_at_string_state, long_string_no_nul.
Qed.

(** C6 as the specification words it fails on a string of 2^31 bytes:
    the byte length is 2147483648 and the function returns
    -2147483648. *)
Lemma native_string_length_truncates :
  cstring_at (string_state 1 (long_string 2147483648) []) (Ptr 1) (long_string 2147483648)
  /\ Z.of_nat (length (long_string 2147483648)) = 2147483648
  /\ native_string_length (Ptr 1) (string_state 1 (long_string 2147483648) [])
     = Ok (-2147483648, string_state 1 (long_string 2147483648) []).
Proof.
  split; [apply cstring_at_string_state, long_string_no_nul|].
  split; [apply long_string_length; lia|].
  rewrite long_string_truncated by lia. reflexivity.
Qed.

(** C10, as the code has it.  When memory is found,
    [native_string_length] of [native_get_greeting NULL] is 13, and for
    a string [name] of at most [INT32_MAX - 8] bytes
    [native_string_length] of [native_get_greeting name] is
    [native_string_length name] plus 8. *)
Theorem greeting_length_round_trip s rest :
  mallocs s = true :: rest ->
  (exists r s',
      native_get_greeting NULL s = Ok (r, s')
      /\ native_string_length r s' = Ok (13, s'))
  /\ (forall name bs,
        cstring_at s name bs ->
        Z.of_nat (length bs) + 8 <= INT32_MAX ->
        exists n r s',
          native_string_length name s = Ok (n, s)
          /\ native_get_greeting name s = Ok (r, s')
          /\ native_string_length r s' = Ok (n + 8, s')).
Proof.
  intros Hm. split.
  - exists (Ptr (fresh (dom (heap s)))), (greeting_state s (list_byte_of_string "World")).
    split.
    + apply (native_get_greeting_exact s NULL _ rest); [apply cstring_at_world|done|].
      vm_compute. discriminate.
    + rewrite (native_string_length_at _ _ _
                 (cstring_at_greeting_state s (list_byte_of_string "World") ltac:(no_nul))).
      reflexivity.
  - intros name bs Hname Hsmall.
    pose proof (cstring_at_no_nul _ _ _ Hname) as Hnul.
    exists (cast_int32 (Z.of_nat (length bs))), (Ptr (fresh (dom (heap s)))), (greeting_state s bs).
    split; [apply (native_string_length_at s name bs Hname)|].
    split; [apply (native_get_greeting_exact s name bs rest);
            [by apply cstring_at_greeting_name|done|unfold_ints; lia]|].
    rewrite (native_string_length_at _ _ _ (cstring_at_greeting_state s bs Hnul)).
    rewrite length_greeting_text, Nat2Z.inj_add.
    rewrite !cast_int32_id; [done| |]; unfold_ints; lia.
Qed.

Lemma greeting_length_round_trip_witness :
  exists r s',
    native_string_length (lit "Ada") (mkState ∅ [true] 0 []) = Ok (3, mkState ∅ [true] 0 [])
    /\ native_get_greeting (lit "Ada") (mkState ∅ [true] 0 []) = Ok (r, s')
    /\ native_string_length r s' = Ok (3 + 8, s').
Proof.
  destruct (greeting_length_round_trip (mkState ∅ [true] 0 []) [] eq_refl) as [_ H].
  destruct (H (lit "Ada") (list_byte_of_string "Ada")) as (n & r & s' & Hn & Hrun & Hlen).
  - apply cstring_at_lit. no_nul.
  - vm_compute. discriminate.
  - assert (Hn3 : n = 3).
    { assert (Hc : native_string_length (lit "Ada") (mkState ∅ [true] 0 [])
                   = Ok (3, mkState ∅ [true] 0 [])) by reflexivity.
      rewrite Hc in Hn. by inversion Hn. }
    subst n. exists r, s'. split; [exact Hn|]. split; [exact Hrun | exact Hlen].
Defined.

(** C10 as the specification words it fails on a name of 2^31 - 8
    bytes: its length is 2147483640, the greeting has 2^31 bytes, and
    [native_string_length] of the greeting is -2147483648. *)
Lemma greeting_length_overflows :
  exists r s',
    cstring_at (string_state 1 (long_string 2147483640) [true]) (Ptr 1)
               (long_string 2147483640)
    /\ native_string_length (Ptr 1) (string_state 1 (long_string 2147483640) [true])
       = Ok (2147483640, string_state 1 (long_string 2147483640) [true])
    /\ native_get_greeting (Ptr 1) (string_state 1 (long_string 2147483640) [true])
       = Ok (r, s')
    /\ native_string_length r s' = Ok (-2147483648, s')
    /\ -2147483648 <> 2147483640 + 8.
Proof.
  pose proof (cstring_at_string_state 1%positive (long_string 2147483640) [true]
                (long_string_no_nul _)) as Hname.
  assert (Hlen : Z.of_nat (length (long_string 2147483640)) = 2147483640)
    by (apply long_string_length; lia).
  exists (Ptr (fresh (dom (heap (string_state 1 (long_string 2147483640) [true]))))),
    (greeting_state (string_state 1 (long_string 2147483640) [true]) (long_string 2147483640)).
  split; [exact Hname|].
  split; [by rewrite (native_string_length_at _ _ _ Hname), Hlen|].
  split.
  - apply (native_get_greeting_exact _ (Ptr 1) _ []); [exact Hname|done|].
    rewrite Hlen. vm_compute. discriminate.
  - rewrite (native_string_length_at _ _ _
               (cstring_at_greeting_state _ _ (long_string_no_nul _))).
    rewrite length_greeting_text, Nat2Z.inj_add, Hlen. split; [reflexivity | lia].
Qed.

(** ** The allocator and [native_get_system_info] *)

Section Allocator.

Lemma malloc_found s n rest :
  mallocs s = true :: rest ->
  malloc n s
  = Ok (Ptr (fresh (dom (heap s))),
        mkState (<[fresh (dom (heap s)) := Raw n]> (heap s)) rest (clock s)
                (trace s ++ [EvMalloc n (Ptr (fresh (dom (heap s))))])).
Proof. intros Hm. unfold malloc. by rewrite Hm. Qed.

Lemma malloc_none s n :
  (forall rest, mallocs s <> true :: rest) ->
  malloc n s
  = Ok (NULL, mkState (heap s) (tail (mallocs s)) (clock s)
                      (trace s ++ [EvMalloc n NULL])).
Proof.
  intros Hm. unfold malloc.
  destruct (mallocs s) as [|[|] rest] eqn:E; [done| |done].
  by destruct (Hm rest).
Qed.

Lemma strcpy_null s src bs :
  cstring_at s src bs -> strcpy NULL src s = Fault NullAccess.
Proof.
  intros Hsrc. unfold strcpy.
  by rewrite (bind_ok _ _ _ _ _ (read_cstr_at _ _ _ Hsrc)).
Qed.

Lemma strcpy_fresh s b n (l : string) :
  heap s !! b = Some (Raw n) ->
  NUL ∉ list_byte_of_string l ->
  n = Z.of_nat (length (list_byte_of_string l)) + 1 ->
  strcpy (Ptr b) (lit l) s
  = Ok (Ptr b, set_heap (<[b := Chars (map Some (list_byte_of_string l ++ [NUL]))]> (heap s)) s).
Proof.
  intros Hb Hl ->. unfold strcpy.
  rewrite (bind_ok _ _ _ _ _ (read_cstr_at _ _ _ (cstring_at_lit s _ Hl))).
  unfold bind, store_chars. rewrite Hb. simpl chars_of. cbv iota beta.
  rewrite length_replicate, length_app. simpl length.
  destruct (_ <=? _) eqn:E; [|apply Z.leb_gt in E; lia].
  rewrite drop_ge, app_nil_r; [done|]. rewrite length_replicate. lia.
Qed.

Lemma store_info_at s b o si upd :
  heap s !! b = Some o -> info_of o = Ok si ->
  store_info (Ptr b) upd s
  = Ok (tt, set_heap (<[b := Info (upd si)]> (heap s)) s).
Proof.
  intros Hb Ho. unfold store_info, bind, load_info. rewrite Hb. simpl.
  by rewrite Ho.
Qed.

Lemma load_field_at {A} s b si (field : SystemInfo -> option A) v :
  heap s !! b = Some (Info si) -> field si = Some v ->
  load_field (Ptr b) field s = Ok (v, s).
Proof.
  intros Hb Hv. unfold load_field, bind, load_info. rewrite Hb. simpl.
  by rewrite Hv.
Qed.

Lemma free_live s b o :
  heap s !! b = Some o ->
  free (Ptr b) s
  = Ok (tt, mkState (delete b (heap s)) (mallocs s) (clock s) (trace s ++ [EvFree b])).
Proof. intros Hb. unfold free. by rewrite Hb. Qed.

End Allocator.

Section SystemInfoRuns.

Lemma native_get_system_info_no_memory s :
  (forall rest, mallocs s <> true :: rest) ->
  native_get_system_info s
  = Ok (NULL, mkState (heap s) (tail (mallocs s)) (clock s)
                      (trace s ++ [EvMalloc sizeof_SystemInfo NULL])).
Proof.
  intros Hm. unfold native_get_system_info.
  by rewrite (bind_ok _ _ _ _ _ (malloc_none s _ Hm)).
Qed.

Lemma native_get_system_info_platform_null s rest :
  mallocs s = true :: rest ->
  (forall rest', rest <> true :: rest') ->
  native_get_system_info s = Fault NullAccess.
Proof.
  intros Hm Hrest. unfold native_get_system_info.
  rewrite (bind_ok _ _ _ _ _ (malloc_found s _ rest Hm)). cbn [is_null].
  rewrite (bind_ok _ _ _ _ _ (malloc_none (mkState _ rest _ _) _ Hrest)).
  apply bind_fault. apply (strcpy_null _ _ (list_byte_of_string "iOS")).
  apply cstring_at_lit. no_nul.
Qed.

Lemma fresh_insert_ne (h : gmap block object) b o :
  fresh (dom (<[b := o]> h)) <> b.
Proof.
  intros E. apply (is_fresh (dom (<[b := o]> h))). rewrite E.
  apply elem_of_dom. rewrite lookup_insert_eq. eauto.
Qed.

Lemma fresh_not_live (h : gmap block object) : h !! fresh (dom h) = None.
Proof. apply not_elem_of_dom, is_fresh. Qed.

Lemma native_get_system_info_version_null s rest :
  mallocs s = true :: true :: rest ->
  (forall rest', rest <> true :: rest') ->
  native_get_system_info s = Fault NullAccess.
Proof.
  intros Hm Hrest. unfold native_get_system_info.
  rewrite (bind_ok _ _ _ _ _ (malloc_found s _ _ Hm)). cbn [is_null].
  set (b1 := fresh (dom (heap s))). set (s1 := mkState _ _ _ _).
  rewrite (bind_ok _ _ _ _ _ (malloc_found s1 4 rest eq_refl)).
  set (b2 := fresh (dom (heap s1))). set (s2 := mkState _ _ _ _).
  assert (Hb2 : heap s2 !! b2 = Some (Raw 4)) by apply lookup_insert_eq.
  rewrite (bind_ok _ _ _ _ _ (strcpy_fresh s2 b2 4 "iOS" Hb2 ltac:(no_nul) eq_refl)).
  set (s3 := set_heap _ s2).
  assert (Hne : b2 <> b1) by apply fresh_insert_ne.
  assert (Hb1 : heap s3 !! b1 = Some (Raw sizeof_SystemInfo)).
  { unfold s3, s2, s1. simpl. by rewrite !lookup_insert_ne, lookup_insert_eq by done. }
  rewrite (bind_ok _ _ _ _ _ (store_info_at s3 b1 _ _ _ Hb1 eq_refl)).
  set (s4 := set_heap _ s3).
  rewrite (bind_ok _ _ _ _ _ (malloc_none s4 6 Hrest)).
  apply bind_fault. apply (strcpy_null _ _ (list_byte_of_string "1.0.0")).
  apply cstring_at_lit. no_nul.
Qed.

Lemma native_get_system_info_memory s rest :
  mallocs s = true :: true :: true :: rest ->
  exists p s',
    native_get_system_info s = Ok (p, s')
    /\ system_info_at s' p (list_byte_of_string "iOS") (list_byte_of_string "1.0.0")
                      (cast_int64 (clock s))
    /\ mallocs s' = rest /\ clock s' = clock s
    /\ (forall b', is_Some (heap s !! b') -> heap s' !! b' = heap s !! b').
Proof.
  intros Hm. unfold native_get_system_info.
  rewrite (bind_ok _ _ _ _ _ (malloc_found s _ _ Hm)). cbn [is_null].
  set (b1 := fresh (dom (heap s))). set (s1 := mkState _ _ _ _).
  rewrite (bind_ok _ _ _ _ _ (malloc_found s1 4 (true :: rest) eq_refl)).
  set (b2 := fresh (dom (heap s1))). set (s2 := mkState _ _ _ _).
  assert (Hb2 : heap s2 !! b2 = Some (Raw 4)) by apply lookup_insert_eq.
  rewrite (bind_ok _ _ _ _ _ (strcpy_fresh s2 b2 4 "iOS" Hb2 ltac:(no_nul) eq_refl)).
  set (s3 := set_heap _ s2).
  assert (H21 : b2 <> b1) by apply fresh_insert_ne.
  assert (Hb1 : heap s3 !! b1 = Some (Raw sizeof_SystemInfo)).
  { unfold s3, s2, s1. simpl. by rewrite !lookup_insert_ne, lookup_insert_eq by done. }
  rewrite (bind_ok _ _ _ _ _ (store_info_at s3 b1 _ _ _ Hb1 eq_refl)).
  set (s4 := set_heap _ s3).
  rewrite (bind_ok _ _ _ _ _ (malloc_found s4 6 rest eq_refl)).
  set (b3 := fresh (dom (heap s4))). set (s5 := mkState _ _ _ _).
  assert (Hb3 : heap s5 !! b3 = Some (Raw 6)) by apply lookup_insert_eq.
  rewrite (bind_ok _ _ _ _ _ (strcpy_fresh s5 b3 6 "1.0.0" Hb3 ltac:(no_nul) eq_refl)).
  set (s6 := set_heap _ s5).
  assert (H31 : b3 <> b1) by apply fresh_insert_ne.
  assert (H32 : b3 <> b2).
  { intros E. pose proof (fresh_not_live (heap s4)) as Hf. fold b3 in Hf.
    rewrite E in Hf. unfold s4, s3 in Hf. simpl in Hf.
    by rewrite lookup_insert_ne, lookup_insert_eq in Hf. }
  assert (Hb1' : heap s6 !! b1 = Some (Info (set_platform (Ptr b2) (mkInfo None None None)))).
  { unfold s6, s5, s4. simpl. by rewrite !lookup_insert_ne, lookup_insert_eq by done. }
  rewrite (bind_ok _ _ _ _ _ (store_info_at s6 b1 _ _ _ Hb1' eq_refl)).
  set (s7 := set_heap _ s6).
  unfold bind at 1, time.
  assert (Hb1'' : heap s7 !! b1
                  = Some (Info (set_version (Ptr b3)
                                  (set_platform (Ptr b2) (mkInfo None None None)))))
    by apply lookup_insert_eq.
  rewrite (bind_ok _ _ _ _ _ (store_info_at s7 b1 _ _ _ Hb1'' eq_refl)).
  set (s8 := set_heap _ s7). unfold ret.
  exists (Ptr b1), s8. split; [done|].
  split; [|split; [done|split; [done|]]].
  - exists b1, b2, b3. split; [done|].
    split; [apply lookup_insert_eq|].
    split; [unfold s8, s7, s6, s5, s4, s3; simpl;
            by rewrite !lookup_insert_ne, lookup_insert_eq by done|].
    split; [unfold s8, s7, s6; simpl;
            by rewrite !lookup_insert_ne, lookup_insert_eq by done|].
    done.
  - intros b' Hlive.
    assert (b' <> b1).
    { intros ->. pose proof (fresh_not_live (heap s)) as Hf. fold b1 in Hf.
      rewrite Hf in Hlive. by destruct Hlive. }
    assert (Hs1 : heap s1 !! b' = heap s !! b')
      by (unfold s1; simpl; by rewrite lookup_insert_ne).
    assert (b' <> b2).
    { intros ->. pose proof (fresh_not_live (heap s1)) as Hf. fold b2 in Hf.
      rewrite Hf in Hs1. rewrite <- Hs1 in Hlive. by destruct Hlive. }
    assert (Hs4 : heap s4 !! b' = heap s !! b')
      by (unfold s4, s3, s2; simpl; by rewrite !lookup_insert_ne by done).
    assert (b' <> b3).
    { intros ->. pose proof (fresh_not_live (heap s4)) as Hf. fold b3 in Hf.
      rewrite Hf in Hs4. rewrite <- Hs4 in Hlive. by destruct Hlive. }
    unfold s8, s7, s6, s5. simpl. by rewrite !lookup_insert_ne by done.
Qed.

End SystemInfoRuns.

Lemma native_get_system_info_cases s :
  (forall rest, mallocs s <> true :: rest)
  \/ ((exists rest, mallocs s = true :: rest)
      /\ native_get_system_info s = Fault NullAccess)
  \/ (exists rest, mallocs s = true :: true :: true :: rest).
Proof.
  destruct (mallocs s) as [|[|] rest1] eqn:Hm; [by left| |by left].
  right. destruct (malloc_answer (mkState (heap s) rest1 0 [])) as [[rest2 H2]|H2];
    simpl in H2.
  - subst rest1.
    destruct (malloc_answer (mkState (heap s) rest2 0 [])) as [[rest3 H3]|H3];
      simpl in H3.
    + subst rest2. right. eauto.
    + left. split; [eauto|]. by apply (native_get_system_info_version_null s rest2).
  - left. split; [eauto|]. by apply (native_get_system_info_platform_null s rest1).
Qed.

(** C1.  A call of [native_get_system_info] that returns, returns null
    exactly when the first [malloc], the one for the record, finds no
    memory; and in that case it does return null.  The two later results
    of [malloc] are not examined: when the record is allocated and the
    allocation of the platform string, or after it that of the version
    string, fails, [strcpy] is reached with a null destination and the
    call is undefined. *)
Theorem native_get_system_info_null_iff :
  (forall s p s',
      native_get_system_info s = Ok (p, s') ->
      (p = NULL <-> forall rest, mallocs s <> true :: rest))
  /\ (forall s,
        (forall rest, mallocs s <> true :: rest) ->
        exists s', native_get_system_info s = Ok (NULL, s'))
  /\ (forall s rest,
        mallocs s = true :: false :: rest ->
        exists b s1 s2,
          malloc sizeof_SystemInfo s = Ok (Ptr b, s1)
          /\ malloc 4 s1 = Ok (NULL, s2)
          /\ strcpy NULL (lit "iOS") s2 = Fault NullAccess
          /\ native_get_system_info s = Fault NullAccess)
  /\ (forall s rest,
        mallocs s = true :: true :: false :: rest ->
        (forall s', strcpy NULL (lit "1.0.0") s' = Fault NullAccess)
        /\ native_get_system_info s = Fault NullAccess).
Proof.
  split; [|split; [|split]].
  - intros s p s' Hrun.
    destruct (native_get_system_info_cases s) as [Hno | [[_ Hub] | [rest Hm]]].
    + rewrite (native_get_system_info_no_memory s Hno) in Hrun.
      inversion Hrun. by split.
    + rewrite Hub in Hrun. discriminate.
    + destruct (native_get_system_info_memory s rest Hm)
        as (p0 & s0 & Hrun0 & (b & ? & ? & -> & _) & _).
      rewrite Hrun0 in Hrun. inversion Hrun; subst.
      split; [discriminate|]. intros Hno. by destruct (Hno (true :: true :: rest)).
  - intros s Hno. eexists. apply (native_get_system_info_no_memory s Hno).
  - intros s rest Hm. eexists _, _, _.
    split; [apply (malloc_found s _ _ Hm)|].
    split; [apply malloc_none; simpl; discriminate|].
    split; [apply (strcpy_null _ _ (list_byte_of_string "iOS")), cstring_at_lit; no_nul|].
    apply (native_get_system_info_platform_null s _ Hm). discriminate.
  - intros s rest Hm. split.
    + intros s'. apply (strcpy_null _ _ (list_byte_of_string "1.0.0")), cstring_at_lit. no_nul.
    + apply (native_get_system_info_version_null s _ Hm). discriminate.
Qed.

Lemma native_get_system_info_null_iff_witness :
  native_get_system_info (mkState ∅ [true; false; true] 0 []) = Fault NullAccess
  /\ native_get_system_info (mkState ∅ [true; true; false] 0 []) = Fault NullAccess
  /\ exists s', native_get_system_info (mkState ∅ [false; true; true] 0 []) = Ok (NULL, s').
Proof.
  destruct native_get_system_info_null_iff as (_ & Hnull & Hplat & Hver).
  split; [|split].
  - destruct (Hplat (mkState ∅ [true; false; true] 0 []) [true] eq_refl)
      as (_ & _ & _ & _ & _ & _ & H). exact H.
  - exact (proj2 (Hver (mkState ∅ [true; true; false] 0 []) [] eq_refl)).
  - apply Hnull. intros rest. simpl. discriminate.
Defined.

Lemma system_info_at_frame s s' p plat ver t :
  system_info_at s p plat ver t ->
  (forall b, is_Some (heap s !! b) -> heap s' !! b = heap s !! b) ->
  system_info_at s' p plat ver t.
Proof.
  intros (b & bp & bv & -> & Hb & Hbp & Hbv & Hne) Hframe.
  exists b, bp, bv. split; [done|].
  rewrite !Hframe by eauto. by rewrite Hb, Hbp, Hbv.
Qed.

(** C7.  A call of [native_get_system_info] that returns a non-null
    pointer returns a record whose [platform] and [version] point to
    blocks holding exactly "iOS" and "1.0.0", both non-empty and the
    same whatever the state, and whose [timestamp] is what [time(NULL)]
    reported at the call, cast to [int64_t]: the clock itself, hence
    within five seconds of it, when the clock is a 64-bit value.  A
    second successful call yields a record with the same two strings
    and leaves the first record as it was. *)
Theorem native_get_system_info_content s p s' :
  native_get_system_info s = Ok (p, s') ->
  p <> NULL ->
  system_info_at s' p (list_byte_of_string "iOS") (list_byte_of_string "1.0.0")
                 (cast_int64 (clock s))
  /\ list_byte_of_string "iOS" <> [] /\ list_byte_of_string "1.0.0" <> []
  /\ (int64 (clock s) ->
      cast_int64 (clock s) = clock s /\ Z.abs (cast_int64 (clock s) - clock s) <= 5)
  /\ (forall q s'',
        native_get_system_info s' = Ok (q, s'') ->
        q <> NULL ->
        system_info_at s'' q (list_byte_of_string "iOS") (list_byte_of_string "1.0.0")
                       (cast_int64 (clock s'))
        /\ system_info_at s'' p (list_byte_of_string "iOS") (list_byte_of_string "1.0.0")
                          (cast_int64 (clock s))).
Proof.
  assert (Hcall : forall s p s',
             native_get_system_info s = Ok (p, s') -> p <> NULL ->
             system_info_at s' p (list_byte_of_string "iOS") (list_byte_of_string "1.0.0")
                            (cast_int64 (clock s))
             /\ (forall b, is_Some (heap s !! b) -> heap s' !! b = heap s !! b)).
  { clear. intros s p s' Hrun Hp.
    destruct (native_get_system_info_cases s) as [Hno | [[_ Hub] | [rest Hm]]].
    - rewrite (native_get_system_info_no_memory s Hno) in Hrun.
      inversion Hrun; subst. by destruct Hp.
    - rewrite Hub in Hrun. discriminate.
    - destruct (native_get_system_info_memory s rest Hm)
        as (p0 & s0 & Hrun0 & Hat & _ & _ & Hframe).
      rewrite Hrun0 in Hrun. inversion Hrun; subst. by split. }
  intros Hrun Hp. destruct (Hcall s p s' Hrun Hp) as [Hat _].
  split; [exact Hat|]. split; [discriminate|]. split; [discriminate|].
  split.
  - intros Hclock. rewrite cast_int64_id by done. split; [done|]. lia.
  - intros q s'' Hrun' Hq. destruct (Hcall s' q s'' Hrun' Hq) as [Hat' Hframe].
    split; [exact Hat'|]. by apply (system_info_at_frame s').
Qed.

Lemma native_get_system_info_content_witness :
  exists p s',
    native_get_system_info (mkState ∅ [true; true; true] 1700000000 []) = Ok (p, s')
    /\ system_info_at s' p (list_byte_of_string "iOS") (list_byte_of_string "1.0.0") 1700000000.
Proof.
  destruct (native_get_system_info_memory (mkState ∅ [true; true; true] 1700000000 []) [] eq_refl)
    as (p & s' & Hrun & (b & _ & _ & Hp & _) & _).
  exists p, s'. split; [exact Hrun|].
  apply (native_get_system_info_content _ p s' Hrun). rewrite Hp. discriminate.
Defined.

(** ** The release functions *)

Section Release.

Lemma free_if_non_null s p :
  releasable (heap s) p ->
  (if negb (is_null p) then free p else ret tt) s
  = Ok (tt, mkState (release p (heap s)) (mallocs s) (clock s) (trace s ++ frees p)).
Proof.
  destruct p as [|b|l]; simpl; intros Hp.
  - unfold ret. rewrite app_nil_r. by destruct s.
  - destruct Hp as [o Ho]. by rewrite Ho.
  - done.
Qed.

End Release.

(** C8.  [native_free_string] and [native_free_system_info] return at
    once on a null pointer and leave the whole state as it was: no block
    is released.  On a record whose [platform] and [version] fields are
    each null or the address of a live block, [native_free_system_info]
    releases the platform buffer if it is non-null, then the version
    buffer if it is non-null, then the record, in that order. *)
Theorem native_free_spec :
  (forall s, native_free_string NULL s = Ok (tt, s))
  /\ (forall s, native_free_system_info NULL s = Ok (tt, s))
  /\ (forall s b p v t,
        heap s !! b = Some (Info (mkInfo (Some p) (Some v) t)) ->
        p <> Ptr b -> v <> Ptr b ->
        releasable (heap s) p ->
        releasable (release p (heap s)) v ->
        native_free_system_info (Ptr b) s
        = Ok (tt, mkState (delete b (release v (release p (heap s))))
                          (mallocs s) (clock s)
                          (trace s ++ frees p ++ frees v ++ [EvFree b]))).
Proof.
  split; [done|]. split; [done|].
  intros s b p v t Hb Hpb Hvb Hp Hv.
  unfold native_free_system_info. cbn [is_null negb].
  rewrite (bind_ok _ _ _ _ _ (load_field_at s b _ platform p Hb eq_refl)).
  rewrite (bind_ok _ _ _ _ _ (free_if_non_null s p Hp)).
  set (s1 := mkState _ _ _ _).
  assert (Hb1 : heap s1 !! b = Some (Info (mkInfo (Some p) (Some v) t))).
  { unfold s1. simpl. destruct p as [|bp|l]; simpl; [done| |done].
    rewrite lookup_delete_ne; [done|congruence]. }
  rewrite (bind_ok _ _ _ _ _ (load_field_at s1 b _ version v Hb1 eq_refl)).
  rewrite (bind_ok _ _ _ _ _ (free_if_non_null s1 v Hv)).
  set (s2 := mkState _ _ _ _).
  assert (Hb2 : heap s2 !! b = Some (Info (mkInfo (Some p) (Some v) t))).
  { unfold s2. simpl. destruct v as [|bv|l]; simpl; [done| |done].
    rewrite lookup_delete_ne; [done|congruence]. }
  rewrite (free_live s2 b _ Hb2). unfold s2, s1. simpl.
  by rewrite <- !app_assoc.
Qed.

Lemma native_free_spec_witness :
  native_free_system_info (Ptr 1)
    (mkState (<[1%positive := Info (mkInfo (Some (Ptr 2)) (Some NULL) None)]>
                {[ 2%positive := Chars [Some NUL] ]}) [] 0 [])
  = Ok (tt, mkState ∅ [] 0 [EvFree 2; EvFree 1]).
Proof.
  destruct native_free_spec as (_ & _ & Hrec).
  rewrite (Hrec _ 1%positive (Ptr 2) NULL None).
  - reflexivity.
  - reflexivity.
  - discriminate.
  - discriminate.
  - simpl. eexists. reflexivity.
  - exact I.
Defined.

(** * Further properties *)

(** ** [native_add] *)

(** X1.  32-bit wrapping addition is commutative and associative,
    overflow or not; 0 is neutral on 32-bit values; and the result is
    always a 32-bit value. *)
Theorem native_add_laws (a b c : Z) :
  native_add a b = native_add b a
  /\ native_add (native_add a b) c = native_add a (native_add b c)
  /\ (int32 a -> native_add a 0 = a)
  /\ int32 (native_add a b).
Proof.
  unfold native_add. rewrite !add32_cast.
  split; [by rewrite Z.add_comm|].
  split.
  - rewrite cast_int32_add_l, (Z.add_comm a (cast_int32 _)), cast_int32_add_l.
    f_equal. lia.
  - split; [|apply cast_int32_range].
    intros Ha. rewrite Z.add_0_r. by apply cast_int32_id.
Qed.

Lemma native_add_laws_witness :
  native_add (native_add 2147483647 1) (-1) = native_add 2147483647 (native_add 1 (-1))
  /\ native_add 2147483647 0 = 2147483647.
Proof.
  destruct (native_add_laws 2147483647 1 (-1)) as (_ & Hassoc & Hzero & _).
  split; [exact Hassoc|]. apply Hzero. unfold_ints. lia.
Defined.

(** X2.  Wrapping loses nothing: on 32-bit values, adding [b] and then
    [- b] gives back [a], also when the first addition overflowed, and
    [native_add a] is injective. *)
Theorem native_add_cancel (a b c : Z) :
  int32 a -> int32 b -> int32 c ->
  (int32 (- b) -> native_add (native_add a b) (- b) = a)
  /\ (native_add a b = native_add a c -> b = c).
Proof.
  intros Ha Hb Hc. unfold native_add. rewrite !add32_cast. split.
  - intros _. rewrite cast_int32_add_l.
    replace (a + b + - b) with a by lia. by apply cast_int32_id.
  - intros Heq. solve_ints.
Qed.

Lemma native_add_cancel_witness :
  native_add 2147483647 5 = -2147483644
  /\ native_add (native_add 2147483647 5) (- 5) = 2147483647.
Proof.
  split; [reflexivity|].
  apply (native_add_cancel 2147483647 5 0); unfold_ints; lia.
Defined.

(** ** [native_sum_array] *)

Lemma add32_casts x y : add32 (cast_int32 x) (cast_int32 y) = cast_int32 (x + y).
Proof. solve_ints. Qed.

Lemma sum_list_app xs ys : sum_list (xs ++ ys) = sum_list xs + sum_list ys.
Proof. induction xs as [|x xs IH]; simpl; [done|]. rewrite IH. lia. Qed.

Lemma sum_list_permutation xs ys : xs ≡ₚ ys -> sum_list xs = sum_list ys.
Proof. induction 1; simpl; lia. Qed.

Lemma sum_first_all xs : sum_first (Z.of_nat (length xs)) xs = sum_list xs.
Proof. unfold sum_first. by rewrite Nat2Z.id, firstn_all. Qed.

Lemma native_sum_array_all s b xs :
  heap s !! b = Some (Ints xs) ->
  0 < Z.of_nat (length xs) <= INT32_MAX ->
  native_sum_array (Ptr b) (Z.of_nat (length xs)) s = Ok (cast_int32 (sum_list xs), s).
Proof.
  intros Hb Hlen.
  rewrite (native_sum_array_wraps s b xs _ Hb); [|lia|unfold_ints; lia|lia].
  by rewrite sum_first_all.
Qed.

(** X3.  Summing in chunks: the sum of a whole array is [native_add] of
    the sums of its two parts, whatever overflows on the way. *)
Theorem native_sum_array_app s b b1 b2 xs ys :
  heap s !! b = Some (Ints (xs ++ ys)) ->
  heap s !! b1 = Some (Ints xs) ->
  heap s !! b2 = Some (Ints ys) ->
  0 < Z.of_nat (length xs) -> 0 < Z.of_nat (length ys) ->
  Z.of_nat (length xs) + Z.of_nat (length ys) <= INT32_MAX ->
  exists r1 r2,
    native_sum_array (Ptr b1) (Z.of_nat (length xs)) s = Ok (r1, s)
    /\ native_sum_array (Ptr b2) (Z.of_nat (length ys)) s = Ok (r2, s)
    /\ native_sum_array (Ptr b) (Z.of_nat (length xs) + Z.of_nat (length ys)) s
       = Ok (native_add r1 r2, s).
Proof.
  intros Hb Hb1 Hb2 Hxs Hys Hlen.
  exists (cast_int32 (sum_list xs)), (cast_int32 (sum_list ys)).
  split; [apply native_sum_array_all; [done|lia]|].
  split; [apply native_sum_array_all; [done|lia]|].
  rewrite <- Nat2Z.inj_add, <- length_app.
  rewrite native_sum_array_all; [|done|rewrite length_app; lia].
  unfold native_add. by rewrite sum_list_app, add32_casts.
Qed.

Lemma native_sum_array_app_witness :
  exists r1 r2,
    native_sum_array (Ptr 2) 2
      (mkState (<[1%positive := Ints [2147483647; 1; 5]]>
                  (<[2%positive := Ints [2147483647; 1]]> {[ 3%positive := Ints [5] ]}))
               [] 0 [])
    = Ok (r1, mkState (<[1%positive := Ints [2147483647; 1; 5]]>
                         (<[2%positive := Ints [2147483647; 1]]> {[ 3%positive := Ints [5] ]}))
                      [] 0 [])
    /\ native_sum_array (Ptr 1) 3
         (mkState (<[1%positive := Ints [2147483647; 1; 5]]>
                     (<[2%positive := Ints [2147483647; 1]]> {[ 3%positive := Ints [5] ]}))
                  [] 0 [])
       = Ok (native_add r1 r2,
             mkState (<[1%positive := Ints [2147483647; 1; 5]]>
                        (<[2%positive := Ints [2147483647; 1]]> {[ 3%positive := Ints [5] ]}))
                     [] 0 []).
Proof.
  destruct (native_sum_array_app
              (mkState (<[1%positive := Ints [2147483647; 1; 5]]>
                          (<[2%positive := Ints [2147483647; 1]]> {[ 3%positive := Ints [5] ]}))
                       [] 0 [])
              1%positive 2%positive 3%positive [2147483647; 1] [5])
    as (r1 & r2 & H1 & _ & H).
  - reflexivity.
  - reflexivity.
  - reflexivity.
  - simpl. lia.
  - simpl. lia.
  - unfold_ints. simpl. lia.
  - exists r1, r2. split; [exact H1 | exact H].
Defined.

(** X4.  The order of the elements does not matter: two arrays that are
    permutations of each other have the same sum, overflow included. *)
Theorem native_sum_array_permutation s b1 b2 xs ys :
  heap s !! b1 = Some (Ints xs) ->
  heap s !! b2 = Some (Ints ys) ->
  xs ≡ₚ ys ->
  0 < Z.of_nat (length xs) <= INT32_MAX ->
  native_sum_array (Ptr b1) (Z.of_nat (length xs)) s
  = native_sum_array (Ptr b2) (Z.of_nat (length ys)) s.
Proof.
  intros Hb1 Hb2 Hperm Hlen.
  rewrite (native_sum_array_all s b1 xs Hb1 Hlen).
  rewrite (native_sum_array_all s b2 ys Hb2); [|by rewrite <- Hperm].
  by rewrite (sum_list_permutation xs ys Hperm).
Qed.

Lemma native_sum_array_permutation_witness :
  native_sum_array (Ptr 1) 3
    (mkState (<[1%positive := Ints [2147483647; 1; -7]]>
                {[ 2%positive := Ints [-7; 2147483647; 1] ]}) [] 0 [])
  = native_sum_array (Ptr 2) 3
      (mkState (<[1%positive := Ints [2147483647; 1; -7]]>
                  {[ 2%positive := Ints [-7; 2147483647; 1] ]}) [] 0 []).
Proof.
  apply (native_sum_array_permutation _ 1%positive 2%positive
           [2147483647; 1; -7] [-7; 2147483647; 1]).
  - reflexivity.
  - reflexivity.
  - symmetry. exact (Permutation_cons_append [2147483647; 1] (-7)).
  - unfold_ints. simpl. lia.
Defined.

Section SumArrayBounds.

Context (s : state) (b : block) (xs : list Z) (len : Z).
Hypothesis array_at : heap s !! b = Some (Ints xs).
Hypothesis len_beyond : Z.of_nat (length xs) < len.
Hypothesis len_int32 : int32 len.

(** The loop walks off the end: started at or before the end of the
    array, with fuel to get there, it stops at [array[length xs]]. *)
Lemma sum_loop_beyond fuel :
  forall i acc,
    0 <= i <= Z.of_nat (length xs) ->
    (Z.to_nat (Z.of_nat (length xs) - i) < fuel)%nat ->
    sum_loop (Ptr b) len fuel i acc s = Fault OutOfBounds.
Proof.
  induction fuel as [|fuel IH]; intros i acc Hi Hfuel; [lia|].
  simpl. destruct (i <? len) eqn:E; [|lia].
  unfold bind, load_int. rewrite array_at.
  destruct (i <? 0) eqn:E0; [lia|].
  destruct (xs !! Z.to_nat i) as [x|] eqn:Hx; [|done].
  apply lookup_lt_Some in Hx.
  assert (Hi1 : add32 i 1 = i + 1).
  { rewrite add32_cast. apply cast_int32_id. unfold_ints. lia. }
  rewrite Hi1. apply IH; lia.
Qed.

End SumArrayBounds.

(** X5.  The length is not checked against the array: with a length
    beyond the end of a non-empty or empty array, [native_sum_array]
    reads [array[length xs]], out of bounds, and the call is
    undefined. *)
Theorem native_sum_array_beyond s b xs len :
  heap s !! b = Some (Ints xs) ->
  Z.of_nat (length xs) < len -> int32 len ->
  native_sum_array (Ptr b) len s = Fault OutOfBounds.
Proof.
  intros Hb Hlen Hlen32. unfold native_sum_array. simpl.
  destruct (len <=? 0) eqn:E; [lia|].
  apply (sum_loop_beyond s b xs len Hb Hlen Hlen32); lia.
Qed.

Lemma native_sum_array_beyond_witness :
  native_sum_array (Ptr 1) 4 (array_state 1 [1; 2; 3]) = Fault OutOfBounds.
Proof.
  apply (native_sum_array_beyond _ 1%positive [1; 2; 3] 4).
  - reflexivity.
  - simpl. lia.
  - unfold_ints. lia.
Defined.

(** ** [native_get_greeting] and [native_free_string] *)

Lemma greeting_name_resolved s name bs :
  name = NULL \/ cstring_at s name bs ->
  exists bs', cstring_at s (greeting_name name) bs'.
Proof.
  intros [-> | H].
  - eexists. apply cstring_at_world.
  - exists bs. by apply cstring_at_greeting_name.
Qed.

Lemma cstring_at_same_heap s s' p bs :
  heap s' = heap s -> cstring_at s p bs -> cstring_at s' p bs.
Proof.
  intros Hh [b bs' rest Hnul Hb | l bs' rest Hnul Hl].
  - apply (cstring_heap _ b bs' rest); [done|]. by rewrite Hh.
  - by apply (cstring_lit _ l bs' rest).
Qed.

(** X6.  Releasing a greeting gives the memory back: for a null or
    string argument, [native_get_greeting] followed by
    [native_free_string] on its result always returns and leaves the
    heap exactly as it was, whether [malloc] found memory or not; the
    allocator saw one [malloc] and, for a non-null result, one [free]
    of that block. *)
Theorem native_get_greeting_released s name bs :
  name = NULL \/ cstring_at s name bs ->
  exists r s' s'' n,
    native_get_greeting name s = Ok (r, s')
    /\ native_free_string r s' = Ok (tt, s'')
    /\ heap s'' = heap s
    /\ trace s'' = trace s ++ EvMalloc n r :: frees r.
Proof.
  intros Hin. destruct (greeting_name_resolved s name bs Hin) as [bs' Hname].
  destruct (malloc_answer s) as [[rest Hm] | Hno].
  - eexists _, _, _, _.
    split; [apply (native_get_greeting_memory s name bs' rest Hname Hm)|].
    split; [eapply (free_live _ (fresh (dom (heap s)))); apply lookup_insert_eq|].
    simpl. split.
    + rewrite delete_insert_eq. apply delete_id, fresh_not_live.
    + by rewrite <- app_assoc.
  - eexists _, _, _, _.
    split; [apply (native_get_greeting_no_memory s name bs' Hname Hno)|].
    split; [reflexivity|]. simpl. by split.
Qed.

Lemma native_get_greeting_released_witness :
  exists r s' s'' n,
    native_get_greeting (lit "Ada") (mkState ∅ [true] 0 []) = Ok (r, s')
    /\ native_free_string r s' = Ok (tt, s'')
    /\ heap s'' = ∅
    /\ trace s'' = EvMalloc n r :: frees r.
Proof.
  destruct (native_get_greeting_released (mkState ∅ [true] 0 []) (lit "Ada")
              (list_byte_of_string "Ada"))
    as (r & s' & s'' & n & H1 & H2 & H3 & H4).
  - right. apply cstring_at_lit. no_nul.
  - exists r, s', s'', n. split; [exact H1|]. split; [exact H2|].
    split; [exact H3 | exact H4].
Defined.

(** X7.  [native_get_greeting] touches nothing that was there: for a
    null or string argument it returns with every block of the old heap
    unchanged, so every string readable before, its argument included,
    reads the same afterwards; it makes a single [malloc] call and never
    calls [free]. *)
Theorem native_get_greeting_frame s name bs :
  name = NULL \/ cstring_at s name bs ->
  exists r s' n,
    native_get_greeting name s = Ok (r, s')
    /\ (forall b o, heap s !! b = Some o -> heap s' !! b = Some o)
    /\ (forall p cs, cstring_at s p cs -> cstring_at s' p cs)
    /\ clock s' = clock s
    /\ trace s' = trace s ++ [EvMalloc n r].
Proof.
  intros Hin. destruct (greeting_name_resolved s name bs Hin) as [bs' Hname].
  destruct (malloc_answer s) as [[rest Hm] | Hno].
  - eexists _, _, _.
    split; [apply (native_get_greeting_memory s name bs' rest Hname Hm)|].
    simpl. split; [|split; [|done]].
    + intros b o Hb. rewrite lookup_insert_ne; [done|].
      intros <-. by rewrite fresh_not_live in Hb.
    + intros p cs Hp. apply cstring_at_alloc; [done | apply is_fresh].
  - eexists _, _, _.
    split; [apply (native_get_greeting_no_memory s name bs' Hname Hno)|].
    simpl. split; [done|]. split; [|done].
    intros p cs Hp. by apply (cstring_at_same_heap s).
Qed.

Lemma native_get_greeting_frame_witness :
  exists r s',
    native_get_greeting (Ptr 1) (string_state 1 (long_string 3) [true]) = Ok (r, s')
    /\ cstring_at s' (Ptr 1) (long_string 3).
Proof.
  assert (H : cstring_at (string_state 1 (long_string 3) [true]) (Ptr 1) (long_string 3)).
  { apply cstring_at_string_state. no_nul. }
  destruct (native_get_greeting_frame _ (Ptr 1) (long_string 3) (or_intror H))
    as (r & s' & n & Hrun & _ & Hframe & _).
  exists r, s'. split; [exact Hrun|]. apply Hframe, H.
Defined.



(** X9.  [native_free_string] on a live block releases that block and
    no other; nothing guards a second call, which passes the dangling
    pointer to [free] and is undefined. *)
Theorem native_free_string_once s b o :
  heap s !! b = Some o ->
  exists s',
    native_free_string (Ptr b) s = Ok (tt, s')
    /\ heap s' !! b = None
    /\ (forall b', b' <> b -> heap s' !! b' = heap s !! b')
    /\ native_free_string (Ptr b) s' = Fault BadFree.
Proof.
  intros Hb. eexists.
  split; [apply (free_live s b o Hb)|]. simpl.
  split; [apply lookup_delete_eq|].
  split; [intros b' Hb'; by apply lookup_delete_ne|].
  unfold native_free_string, free. simpl. by rewrite lookup_delete_eq.
Qed.

Lemma native_free_string_once_witness :
  exists s',
    native_free_string (Ptr 1) (string_state 1 (long_string 3) []) = Ok (tt, s')
    /\ native_free_string (Ptr 1) s' = Fault BadFree.
Proof.
  destruct (native_free_string_once (string_state 1 (long_string 3) []) 1%positive
              (Chars (map Some (long_string 3) ++ [Some NUL])))
    as (s' & H1 & _ & _ & H2).
  - reflexivity.
  - exists s'. split; [exact H1 | exact H2].
Defined.

Lemma cstr_unterminated bs :
  NUL ∉ bs -> cstr (map Some bs) = Fault OutOfBounds.
Proof.
  induction bs as [|c bs IH]; intros Hnul; [done|].
  apply not_elem_of_cons in Hnul as [Hc Hbs]. simpl.
  rewrite is_nul_false by done. by rewrite IH.
Qed.

(** X10.  Neither function bounds its scan for the terminator: on a
    buffer whose bytes are all written and none of them is the
    terminator, [native_string_length] and [native_get_greeting] read
    past its end and are undefined. *)
Theorem unterminated_string_undefined s b bs :
  heap s !! b = Some (Chars (map Some bs)) ->
  NUL ∉ bs ->
  native_string_length (Ptr b) s = Fault OutOfBounds
  /\ native_get_greeting (Ptr b) s = Fault OutOfBounds.
Proof.
  intros Hb Hnul.
  assert (Hread : read_cstr (Ptr b) s = Fault OutOfBounds).
  { unfold read_cstr, bind, load_chars. rewrite Hb. simpl.
    by rewrite cstr_unterminated. }
  assert (Hlen : strlen (Ptr b) s = Fault OutOfBounds).
  { unfold strlen. by apply bind_fault. }
  split.
  - unfold native_string_length. simpl. by apply bind_fault.
  - unfold native_get_greeting. cbv zeta. cbn [is_null].
    rewrite (bind_ok _ _ _ _ _ (strlen_lit s "Hello, " ltac:(no_nul))).
    by apply bind_fault.
Qed.

Lemma unterminated_string_undefined_witness :
  native_string_length (Ptr 1)
    (mkState {[ 1%positive := Chars (map Some (long_string 3)) ]} [true] 0 [])
  = Fault OutOfBounds.
Proof.
  apply (unterminated_string_undefined _ 1%positive (long_string 3)).
  - reflexivity.
  - no_nul.
Defined.

(** ** [native_get_system_info] and [native_free_system_info] *)

Section SystemInfoBlocks.

(** The whole state after a call in which [malloc] finds memory three
    times: three new blocks on top of the old heap. *)
Lemma native_get_system_info_blocks s rest :
  mallocs s = true :: true :: true :: rest ->
  exists b bp bv,
    heap s !! b = None /\ heap s !! bp = None /\ heap s !! bv = None
    /\ b <> bp /\ b <> bv /\ bp <> bv
    /\ native_get_system_info s
       = Ok (Ptr b,
             mkState
               (<[b := Info (mkInfo (Some (Ptr bp)) (Some (Ptr bv))
                                    (Some (cast_int64 (clock s))))]>
                  (<[bv := Chars (map Some (list_byte_of_string "1.0.0" ++ [NUL]))]>
                     (<[bp := Chars (map Some (list_byte_of_string "iOS" ++ [NUL]))]>
                        (heap s))))
               rest (clock s)
               (trace s ++ [EvMalloc sizeof_SystemInfo (Ptr b);
                            EvMalloc 4 (Ptr bp); EvMalloc 6 (Ptr bv)])).
Proof.
  intros Hm. unfold native_get_system_info.
  rewrite (bind_ok _ _ _ _ _ (malloc_found s _ _ Hm)). cbn [is_null].
  set (b1 := fresh (dom (heap s))). set (s1 := mkState _ _ _ _).
  rewrite (bind_ok _ _ _ _ _ (malloc_found s1 4 (true :: rest) eq_refl)).
  set (b2 := fresh (dom (heap s1))). set (s2 := mkState _ _ _ _).
  assert (Hb2 : heap s2 !! b2 = Some (Raw 4)) by apply lookup_insert_eq.
  rewrite (bind_ok _ _ _ _ _ (strcpy_fresh s2 b2 4 "iOS" Hb2 ltac:(no_nul) eq_refl)).
  set (s3 := set_heap _ s2).
  assert (H21 : b2 <> b1) by apply fresh_insert_ne.
  assert (Hb1 : heap s3 !! b1 = Some (Raw sizeof_SystemInfo)).
  { unfold s3, s2, s1. simpl. by rewrite !lookup_insert_ne, lookup_insert_eq by done. }
  rewrite (bind_ok _ _ _ _ _ (store_info_at s3 b1 _ _ _ Hb1 eq_refl)).
  set (s4 := set_heap _ s3).
  rewrite (bind_ok _ _ _ _ _ (malloc_found s4 6 rest eq_refl)).
  set (b3 := fresh (dom (heap s4))). set (s5 := mkState _ _ _ _).
  assert (Hb3 : heap s5 !! b3 = Some (Raw 6)) by apply lookup_insert_eq.
  rewrite (bind_ok _ _ _ _ _ (strcpy_fresh s5 b3 6 "1.0.0" Hb3 ltac:(no_nul) eq_refl)).
  set (s6 := set_heap _ s5).
  assert (H31 : b3 <> b1) by apply fresh_insert_ne.
  assert (H32 : b3 <> b2).
  { intros E. pose proof (fresh_not_live (heap s4)) as Hf. fold b3 in Hf.
    rewrite E in Hf. unfold s4, s3 in Hf. simpl in Hf.
    by rewrite lookup_insert_ne, lookup_insert_eq in Hf. }
  assert (Hb1' : heap s6 !! b1 = Some (Info (set_platform (Ptr b2) (mkInfo None None None)))).
  { unfold s6, s5, s4. simpl. by rewrite !lookup_insert_ne, lookup_insert_eq by done. }
  rewrite (bind_ok _ _ _ _ _ (store_info_at s6 b1 _ _ _ Hb1' eq_refl)).
  set (s7 := set_heap _ s6).
  unfold bind at 1, time.
  assert (Hb1'' : heap s7 !! b1
                  = Some (Info (set_version (Ptr b3)
                                  (set_platform (Ptr b2) (mkInfo None None None)))))
    by apply lookup_insert_eq.
  rewrite (bind_ok _ _ _ _ _ (store_info_at s7 b1 _ _ _ Hb1'' eq_refl)).
  unfold ret.
  assert (F1 : heap s !! b1 = None) by apply fresh_not_live.
  assert (F2 : heap s !! b2 = None).
  { pose proof (fresh_not_live (heap s1)) as Hf. fold b2 in Hf.
    unfold s1 in Hf. simpl in Hf. by rewrite lookup_insert_ne in Hf. }
  assert (F3 : heap s !! b3 = None).
  { pose proof (fresh_not_live (heap s4)) as Hf. fold b3 in Hf.
    unfold s4, s3, s2, s1 in Hf. simpl in Hf.
    by rewrite !lookup_insert_ne in Hf by done. }
  exists b1, b2, b3. do 3 (split; [done|]).
  split; [done|]. split; [done|]. split; [done|].
  f_equal. f_equal.
  unfold s7, s6, s5, s4, s3, s2, s1, set_heap, set_timestamp, set_version, set_platform.
  simpl. f_equal.
  - apply map_eq. intros i. rewrite !lookup_insert.
    repeat case_decide; subst; congruence.
  - by rewrite <- !app_assoc.
Qed.

End SystemInfoBlocks.

Section ReleaseRun.

(** Releasing a record, step by step. *)
Lemma native_free_system_info_run s b p v t :
  heap s !! b = Some (Info (mkInfo (Some p) (Some v) t)) ->
  p <> Ptr b -> v <> Ptr b ->
  releasable (heap s) p ->
  releasable (release p (heap s)) v ->
  native_free_system_info (Ptr b) s
  = Ok (tt, mkState (delete b (release v (release p (heap s))))
                    (mallocs s) (clock s)
                    (trace s ++ frees p ++ frees v ++ [EvFree b])).
Proof.
  intros Hb Hpb Hvb Hp Hv.
  unfold native_free_system_info. cbn [is_null negb].
  rewrite (bind_ok _ _ _ _ _ (load_field_at s b _ platform p Hb eq_refl)).
  rewrite (bind_ok _ _ _ _ _ (free_if_non_null s p Hp)).
  set (s1 := mkState _ _ _ _).
  assert (Hb1 : heap s1 !! b = Some (Info (mkInfo (Some p) (Some v) t))).
  { unfold s1. simpl. destruct p as [|bp|l]; simpl; [done| |done].
    rewrite lookup_delete_ne; [done|congruence]. }
  rewrite (bind_ok _ _ _ _ _ (load_field_at s1 b _ version v Hb1 eq_refl)).
  rewrite (bind_ok _ _ _ _ _ (free_if_non_null s1 v Hv)).
  set (s2 := mkState _ _ _ _).
  assert (Hb2 : heap s2 !! b = Some (Info (mkInfo (Some p) (Some v) t))).
  { unfold s2. simpl. destruct v as [|bv|l]; simpl; [done| |done].
    rewrite lookup_delete_ne; [done|congruence]. }
  rewrite (free_live s2 b _ Hb2). unfold s2, s1. simpl.
  by rewrite <- !app_assoc.
Qed.

End ReleaseRun.

(** X11.  A record that is released gives all its memory back.  When
    [malloc] finds memory three times, [native_get_system_info] followed
    by [native_free_system_info] leaves the heap exactly as it was; the
    allocator saw requests of 24, 4 and 6 bytes and then the release of
    the platform buffer, the version buffer and the record, in that
    order.  When the first [malloc] finds none, the result is null, the
    heap is untouched and releasing the result does nothing. *)
Theorem native_get_system_info_released s :
  (forall rest,
      mallocs s = true :: true :: true :: rest ->
      exists b bp bv s' s'',
        native_get_system_info s = Ok (Ptr b, s')
        /\ native_free_system_info (Ptr b) s' = Ok (tt, s'')
        /\ heap s'' = heap s
        /\ mallocs s'' = rest
        /\ trace s'' = trace s ++ [EvMalloc 24 (Ptr b); EvMalloc 4 (Ptr bp);
                                   EvMalloc 6 (Ptr bv);
                                   EvFree bp; EvFree bv; EvFree b])
  /\ ((forall rest, mallocs s <> true :: rest) ->
      exists s',
        native_get_system_info s = Ok (NULL, s')
        /\ heap s' = heap s
        /\ native_free_system_info NULL s' = Ok (tt, s')).
Proof.
  split.
  - intros rest Hm.
    destruct (native_get_system_info_blocks s rest Hm)
      as (b & bp & bv & Fb & Fbp & Fbv & Hbp & Hbv & Hpv & Hrun).
    eexists b, bp, bv, _, _. split; [exact Hrun|].
    split.
    + apply native_free_system_info_run with (t := Some (cast_int64 (clock s))).
      * apply lookup_insert_eq.
      * congruence.
      * congruence.
      * simpl. rewrite !lookup_insert_ne, lookup_insert_eq by done. eauto.
      * simpl. rewrite lookup_delete_ne, lookup_insert_ne, lookup_insert_eq by done.
        eauto.
    + simpl. split; [|split; [done|]].
      * apply map_eq. intros i.
        rewrite !lookup_delete, !lookup_insert.
        repeat case_decide; subst; congruence.
      * by rewrite <- app_assoc.
  - intros Hno. eexists.
    split; [apply (native_get_system_info_no_memory s Hno)|]. by split.
Qed.

Lemma native_get_system_info_released_witness :
  exists b s' s'',
    native_get_system_info (mkState ∅ [true; true; true] 0 []) = Ok (Ptr b, s')
    /\ native_free_system_info (Ptr b) s' = Ok (tt, s'')
    /\ heap s'' = ∅.
Proof.
  destruct (native_get_system_info_released (mkState ∅ [true; true; true] 0 [])) as [H _].
  destruct (H [] eq_refl) as (b & bp & bv & s' & s'' & H1 & H2 & H3 & _).
  exists b, s', s''. split; [exact H1|]. split; [exact H2 | exact H3].
Defined.

(** X12.  Nothing guards a second release of a record: after
    [native_free_system_info] has released a record, a second call on
    the same pointer reads [info->platform] from released memory and is
    undefined. *)
Theorem native_free_system_info_once s b p v t :
  heap s !! b = Some (Info (mkInfo (Some p) (Some v) t)) ->
  p <> Ptr b -> v <> Ptr b ->
  releasable (heap s) p ->
  releasable (release p (heap s)) v ->
  exists s' f,
    native_free_system_info (Ptr b) s = Ok (tt, s')
    /\ heap s' !! b = None
    /\ native_free_system_info (Ptr b) s' = Fault f.
Proof.
  intros Hb Hpb Hvb Hp Hv. eexists _, _.
  split; [apply (native_free_system_info_run s b p v t Hb Hpb Hvb Hp Hv)|].
  simpl. split; [apply lookup_delete_eq|].
  unfold native_free_system_info, load_field, load_info, bind. simpl.
  by rewrite lookup_delete_eq.
Qed.

Lemma native_free_system_info_once_witness :
  exists s' f,
    native_free_system_info (Ptr 1)
      (mkState (<[1%positive := Info (mkInfo (Some (Ptr 2)) (Some NULL) None)]>
                  {[ 2%positive := Chars [Some NUL] ]}) [] 0 [])
    = Ok (tt, s')
    /\ native_free_system_info (Ptr 1) s' = Fault f.
Proof.
  destruct (native_free_system_info_once
              (mkState (<[1%positive := Info (mkInfo (Some (Ptr 2)) (Some NULL) None)]>
                          {[ 2%positive := Chars [Some NUL] ]}) [] 0 [])
              1%positive (Ptr 2) NULL None)
    as (s' & f & H1 & _ & H2).
  - reflexivity.
  - discriminate.
  - discriminate.
  - simpl. eexists. reflexivity.
  - exact I.
  - exists s', f. split; [exact H1 | exact H2].
Defined.

(** X13.  The two buffers of a record are released without comparing
    them: on a record whose [platform] and [version] fields hold the
    same non-null pointer, [native_free_system_info] releases that
    buffer twice and is undefined. *)
Theorem native_free_system_info_aliased s b bp t :
  heap s !! b = Some (Info (mkInfo (Some (Ptr bp)) (Some (Ptr bp)) t)) ->
  is_Some (heap s !! bp) -> bp <> b ->
  native_free_system_info (Ptr b) s = Fault BadFree.
Proof.
  intros Hb Hbp Hne. unfold native_free_system_info. cbn [is_null negb].
  rewrite (bind_ok _ _ _ _ _ (load_field_at s b _ platform (Ptr bp) Hb eq_refl)).
  rewrite (bind_ok _ _ _ _ _ (free_if_non_null s (Ptr bp) Hbp)).
  set (s1 := mkState _ _ _ _).
  assert (Hb1 : heap s1 !! b = Some (Info (mkInfo (Some (Ptr bp)) (Some (Ptr bp)) t))).
  { unfold s1. simpl. by rewrite lookup_delete_ne. }
  rewrite (bind_ok _ _ _ _ _ (load_field_at s1 b _ version (Ptr bp) Hb1 eq_refl)).
  apply bind_fault. cbn [is_null negb]. unfold free, s1. simpl.
  by rewrite lookup_delete_eq.
Qed.

Lemma native_free_system_info_aliased_witness :
  native_free_system_info (Ptr 1)
    (mkState (<[1%positive := Info (mkInfo (Some (Ptr 2)) (Some (Ptr 2)) None)]>
                {[ 2%positive := Chars [Some NUL] ]}) [] 0 [])
  = Fault BadFree.
Proof.
  apply (native_free_system_info_aliased _ 1%positive 2%positive None).
  - reflexivity.
  - eexists. reflexivity.
  - discriminate.
Defined.

(** X14.  Records are independent: when [malloc] keeps finding memory,
    two calls of [native_get_system_info] return different records, and
    after the first has been released the second is still whole, with
    its two strings and its timestamp. *)
Theorem native_get_system_info_independent s rest :
  mallocs s = true :: true :: true :: true :: true :: true :: rest ->
  exists p q s1 s2 s3,
    native_get_system_info s = Ok (p, s1)
    /\ native_get_system_info s1 = Ok (q, s2)
    /\ p <> q
    /\ native_free_system_info p s2 = Ok (tt, s3)
    /\ system_info_at s3 q (list_byte_of_string "iOS") (list_byte_of_string "1.0.0")
                      (cast_int64 (clock s)).
Proof.
  intros Hm.
  destruct (native_get_system_info_blocks s _ Hm)
    as (b & bp & bv & Fb & Fbp & Fbv & Hbp & Hbv & Hpv & Hrun).
  set (s1 := mkState _ _ _ _) in Hrun.
  destruct (native_get_system_info_blocks s1 rest eq_refl)
    as (c & cp & cv & Fc & Fcp & Fcv & Hcp & Hcv & Hcpv & Hrun').
  set (s2 := mkState _ _ _ _) in Hrun'.
  unfold s1 in Fc, Fcp, Fcv. simpl in Fc, Fcp, Fcv.
  assert (Hne : forall x, (<[b := Info (mkInfo (Some (Ptr bp)) (Some (Ptr bv))
                                          (Some (cast_int64 (clock s))))]>
                             (<[bv := Chars (map Some (list_byte_of_string "1.0.0" ++ [NUL]))]>
                                (<[bp := Chars (map Some (list_byte_of_string "iOS" ++ [NUL]))]>
                                   (heap s)))) !! x = None ->
                     x <> b /\ x <> bp /\ x <> bv).
  { intros x Hx. rewrite !lookup_insert in Hx.
    repeat case_decide; subst; try discriminate. done. }
  destruct (Hne c Fc) as (? & ? & ?).
  destruct (Hne cp Fcp) as (? & ? & ?).
  destruct (Hne cv Fcv) as (? & ? & ?).
  exists (Ptr b), (Ptr c), s1, s2. eexists.
  split; [exact Hrun|]. split; [exact Hrun'|]. split; [congruence|].
  split.
  - apply (native_free_system_info_run s2 b (Ptr bp) (Ptr bv) (Some (cast_int64 (clock s)))).
    + unfold s2, s1. simpl. rewrite !lookup_insert_ne by done.
      apply lookup_insert_eq.
    + congruence.
    + congruence.
    + unfold s2, s1. simpl.
      rewrite !lookup_insert_ne by done. rewrite lookup_insert_eq. eauto.
    + unfold s2, s1. simpl. rewrite lookup_delete_ne by done.
      rewrite !lookup_insert_ne by done. rewrite lookup_insert_eq. eauto.
  - exists c, cp, cv. unfold s2, s1. simpl. split; [done|].
    repeat match goal with
           | |- context [delete ?i ?m !! ?j] =>
               rewrite (lookup_delete_ne m i j) by (done || by apply not_eq_sym)
           | |- context [<[?i := ?x]> ?m !! ?j] =>
               rewrite (lookup_insert_ne m i j x) by (done || by apply not_eq_sym)
           end.
    by rewrite !lookup_insert_eq.
Qed.

Lemma native_get_system_info_independent_witness :
  exists p q s1 s2 s3,
    native_get_system_info (mkState ∅ [true; true; true; true; true; true] 7 []) = Ok (p, s1)
    /\ native_get_system_info s1 = Ok (q, s2)
    /\ native_free_system_info p s2 = Ok (tt, s3)
    /\ system_info_at s3 q (list_byte_of_string "iOS") (list_byte_of_string "1.0.0") 7.
Proof.
  destruct (native_get_system_info_independent
              (mkState ∅ [true; true; true; true; true; true] 7 []) [] eq_refl)
    as (p & q & s1 & s2 & s3 & H1 & H2 & _ & H3 & H4).
  exists p, q, s1, s2, s3.
  split; [exact H1|]. split; [exact H2|]. split; [exact H3 | exact H4].
Defined.
